(** * Strong Birthday Problem: the recurrence engines and their assemblers

    A shallow embedding of the seven Python modules of the repository
    ([sbp_implementation.py], [sbp_r1_recurrence_*.py],
    [sbp_r2_*_float.py], [sbp_r3_assoc_stirling_*.py]) and the proofs of
    the properties their specification states.

    Conventions of the embedding.
    - Python integers are [Z].
    - [mpmath.mpf] values (1000 decimal digits) and Python floats are read
      under exact arithmetic: integer-valued quantities (the counts [T] and
      [S], the summands of the direct formula) are [Z], probabilities are
      [Q].  Rounding is not modelled.
    - Dictionaries are [gmap]s; a memo table that a callee mutates is
      threaded through the call and returned next to the value.
    - A call either returns a value, raises, or (for the recursive
      functions, which are written with fuel) does not finish: type [res]. *)

From Stdlib Require Import ZArith QArith Qpower Qfield Lia List.
From stdpp Require Import base option list list_numbers gmap.
Import ListNotations.

Local Open Scope Z_scope.

(** ** Outcomes of a call *)

Inductive exn : Type :=
  | TypeError
  | ZeroDivisionError.

Inductive res (A : Type) : Type :=
  | Val (a : A)
  | Raise (e : exn)
  | OutOfFuel.

Arguments Val {A} a.
Arguments Raise {A} e.
Arguments OutOfFuel {A}.

Definition bind {A B : Type} (c : res A) (f : A -> res B) : res B :=
  match c with
  | Val a => f a
  | Raise e => Raise e
  | OutOfFuel => OutOfFuel
  end.

Notation "x <-- c ;; k" := (bind c (fun x => k))
  (at level 20, c at level 99, k at level 200, only parsing).
Notation "' pat <-- c ;; k" := (bind c (fun x => match x with pat => k end))
  (at level 20, pat pattern, c at level 99, k at level 200, only parsing).

(** A [for] loop whose body may raise: the state is threaded from left to
    right and the first failure ends the loop. *)
Fixpoint for_each {A St : Type} (body : St -> A -> res St) (l : list A) (s : St)
  : res St :=
  match l with
  | [] => Val s
  | x :: l' => s' <-- body s x ;; for_each body l' s'
  end.

(** Python's [range(a, b)] over integers. *)
Definition range (a b : Z) : list Z := seqZ a (b - a).

(** ** The numeric kernel (mpmath), on the arguments the engines pass

    [binomial] and [factorial] are only ever called on non-negative
    integers when [m >= 0] and [k >= 0]; the definitions below are the
    usual ones there. [power] and division raise on a zero divisor as
    mpmath does. *)
Module Mp.

Fixpoint choose (n k : nat) : nat :=
  match n, k with
  | _, O => 1%nat
  | O, S _ => 0%nat
  | S n', S k' => (choose n' k' + choose n' k)%nat
  end.

Definition binomial (n k : Z) : Z :=
  Z.of_nat (choose (Z.to_nat n) (Z.to_nat k)).

Definition factorial (n : Z) : Z := Z.of_nat (fact (Z.to_nat n)).

Definition power (x : Q) (n : Z) : res Q :=
  if (n <? 0) && Qeq_bool x 0 then Raise ZeroDivisionError
  else Val (x ^ n)%Q.

Definition div (x y : Q) : res Q :=
  if Qeq_bool y 0 then Raise ZeroDivisionError else Val (x / y)%Q.

End Mp.

(** ** Direct formula: [sbp_implementation.prob] *)

Definition prob_term (m n k j : Z) : Z :=
  let sign := (-1) ^ (j - k) in
  let binom_j_k := Mp.binomial j k in
  let binom_m_j := Mp.binomial m j in
  let binom_n_j := Mp.binomial n j in
  let j_factorial := Mp.factorial j in
  let power_term := if 0 <? n - j then (m - j) ^ (n - j) else 1 in
  sign * binom_j_k * binom_m_j * binom_n_j * j_factorial * power_term.

Definition prob (m n k : Z) : res Q :=
  denominator <-- Mp.power (inject_Z m) n ;;
  let sum_result :=
    fold_left (fun acc j => acc + prob_term m n k j) (range k (n + 1)) 0 in
  Mp.div (inject_Z sum_result) denominator.

(** ** Occupancy recurrence, memoised: [sbp_r1_recurrence_memoization] *)

Abbreviation key4 := (Z * Z * Z * Z)%type.
Abbreviation key2 := (Z * Z)%type.

(** The test of "Case 1: Invalid states", shared by [T] and [P]. *)
Definition invalid_state (j k n m : Z) : bool :=
  (j <? 0) || (k <? 0) || (n <? 2 * j + k) || (m <? j + k).

Fixpoint T_rec (fuel : nat) (j k n m : Z) (memo : gmap key4 Z)
  : res (Z * gmap key4 Z) :=
  match fuel with
  | O => OutOfFuel
  | S fuel' =>
      let key := (j, k, n, m) in
      match memo !! key with
      | Some v => Val (v, memo)
      | None =>
          if invalid_state j k n m then Val (0, memo)
          else if (j =? 0) && (k =? 0) && (n =? 0) then Val (1, memo)
          else
            '(r1, memo1) <-- T_rec fuel' j k (n - 1) m memo ;;
            let term1 := j * r1 in
            '(r2, memo2) <-- T_rec fuel' (j - 1) (k + 1) (n - 1) m memo1 ;;
            let term2 := (k + 1) * r2 in
            '(r3, memo3) <-- T_rec fuel' j (k - 1) (n - 1) m memo2 ;;
            let term3 := (m - j - k + 1) * r3 in
            let result := term1 + term2 + term3 in
            Val (result, <[key := result]> memo3)
      end
  end.

(** [T(j, k, n, m, memo=None)]: a missing memo is replaced by a fresh one.
    The recursion goes down in [n] only, one level per call. *)
Definition T (j k n m : Z) (memo : option (gmap key4 Z))
  : res (Z * gmap key4 Z) :=
  let memo := match memo with None => ∅ | Some d => d end in
  T_rec (S (Z.to_nat n)) j k n m memo.

Definition prob_r1 (m n : Z) : res Q :=
  let max_j := n / 2 in
  '(N, _) <--
    for_each (fun '(N, memo) j =>
                '(term, memo') <-- T j 0 n m (Some memo) ;;
                Val (N + term, memo'))
             (range 1 (max_j + 1)) (0, ∅) ;;
  denominator <-- Mp.power (inject_Z m) n ;;
  Mp.div (inject_Z N) denominator.

(** ** Occupancy recurrence, bottom-up: [sbp_r1_recurrence_bottomup] *)

(** The body of the two nested loops for one pair [(j, k)]. *)
Definition T_cell (m n : Z) (prev : gmap key2 Z) (curr : gmap key2 Z)
  (j k : Z) : gmap key2 Z :=
  if (n <? 2 * j + k) || (m <? j + k) then curr
  else
    let result := 0 in
    let result :=
      match prev !! (j, k) with
      | Some v => result + j * v
      | None => result
      end in
    let result :=
      if 0 <? j then
        match prev !! (j - 1, k + 1) with
        | Some v => result + (k + 1) * v
        | None => result
        end
      else result in
    let result :=
      if 0 <? k then
        match prev !! (j, k - 1) with
        | Some v => result + (m - j - k + 1) * v
        | None => result
        end
      else result in
    if result =? 0 then curr else <[(j, k) := result]> curr.

Definition T_layer (m n : Z) (prev : gmap key2 Z) : gmap key2 Z :=
  let max_k := Z.min n m in
  let max_j := n / 2 in
  fold_left (fun curr j =>
               fold_left (fun curr k => T_cell m n prev curr j k)
                         (range 0 (max_k + 1)) curr)
            (range 0 (max_j + 1)) ∅.

(** One turn of the outer loop on the pair [(prev, curr)]. *)
Definition T_step (m : Z) (st : gmap key2 Z * gmap key2 Z) (n : Z)
  : gmap key2 Z * gmap key2 Z :=
  let curr := T_layer m n (fst st) in (curr, curr).

Definition T_loop (m : Z) (ns : list Z) : gmap key2 Z * gmap key2 Z :=
  fold_left (T_step m) ns ({[ (0, 0) := 1 ]}, ∅).

Definition T_bottomup (n_target m : Z) : gmap key2 Z :=
  snd (T_loop m (range 1 (n_target + 1))).

Definition prob_r1_bottomup (m n : Z) : res Q :=
  let T_values := T_bottomup n m in
  let max_j := n / 2 in
  let N :=
    fold_left (fun N j =>
                 match T_values !! (j, 0) with
                 | Some v => N + v
                 | None => N
                 end)
              (range 1 (max_j + 1)) 0 in
  denominator <-- Mp.power (inject_Z m) n ;;
  Mp.div (inject_Z N) denominator.

(** ** Probability recurrence, memoised:
       [sbp_r2_probability_recurrence_memoization_float] *)

Fixpoint P_rec (fuel : nat) (j k n m : Z) (memo : gmap key4 Q)
  : res (Q * gmap key4 Q) :=
  match fuel with
  | O => OutOfFuel
  | S fuel' =>
      let key := (j, k, n, m) in
      match memo !! key with
      | Some v => Val (v, memo)
      | None =>
          if invalid_state j k n m then Val (0%Q, memo)
          else if (j =? 0) && (k =? 0) && (n =? 0) then Val (1%Q, memo)
          else
            m_inv <-- Mp.div 1 (inject_Z m) ;;
            '(r1, memo1) <-- P_rec fuel' j k (n - 1) m memo ;;
            let term1 := (inject_Z j * r1)%Q in
            '(r2, memo2) <-- P_rec fuel' (j - 1) (k + 1) (n - 1) m memo1 ;;
            let term2 := (inject_Z (k + 1) * r2)%Q in
            '(r3, memo3) <-- P_rec fuel' j (k - 1) (n - 1) m memo2 ;;
            let term3 := (inject_Z (m - j - k + 1) * r3)%Q in
            let sum_terms := (term1 + term2 + term3)%Q in
            let result := (m_inv * sum_terms)%Q in
            Val (result, <[key := result]> memo3)
      end
  end.

Definition P (j k n m : Z) (memo : option (gmap key4 Q))
  : res (Q * gmap key4 Q) :=
  let memo := match memo with None => ∅ | Some d => d end in
  P_rec (S (Z.to_nat n)) j k n m memo.

Definition prob_r2_float (m n : Z) : res Q :=
  let max_j := n / 2 in
  '(result, _) <--
    for_each (fun '(result, memo) j =>
                '(term, memo') <-- P j 0 n m (Some memo) ;;
                Val ((result + term)%Q, memo'))
             (range 1 (max_j + 1)) (0%Q, ∅) ;;
  Val result.

(** ** Probability recurrence, bottom-up: [sbp_r2_recurrence_bottomup_float] *)

Definition P_cell (m n : Z) (m_inv : Q) (prev : gmap key2 Q)
  (curr : gmap key2 Q) (j k : Z) : gmap key2 Q :=
  if n <? 2 * j + k then curr
  else
    let result := 0%Q in
    let result :=
      match prev !! (j, k) with
      | Some v => (result + inject_Z j * v)%Q
      | None => result
      end in
    let result :=
      if 0 <? j then
        match prev !! (j - 1, k + 1) with
        | Some v => (result + inject_Z (k + 1) * v)%Q
        | None => result
        end
      else result in
    let result :=
      if 0 <? k then
        match prev !! (j, k - 1) with
        | Some v => (result + inject_Z (m - j - k + 1) * v)%Q
        | None => result
        end
      else result in
    let result := (result * m_inv)%Q in
    if Qeq_bool result 0 then curr else <[(j, k) := result]> curr.

Definition P_layer (m n : Z) (m_inv : Q) (prev : gmap key2 Q) : gmap key2 Q :=
  let max_j := n / 2 in
  let max_k := Z.min n m in
  fold_left (fun curr j =>
               fold_left (fun curr k => P_cell m n m_inv prev curr j k)
                         (range 0 (max_k + 1)) curr)
            (range 0 (max_j + 1)) ∅.

Definition P_step (m : Z) (m_inv : Q) (st : gmap key2 Q * gmap key2 Q) (n : Z)
  : gmap key2 Q * gmap key2 Q :=
  let curr := P_layer m n m_inv (fst st) in (curr, curr).

Definition P_loop (m : Z) (m_inv : Q) (ns : list Z)
  : gmap key2 Q * gmap key2 Q :=
  fold_left (P_step m m_inv) ns ({[ (0, 0) := 1%Q ]}, ∅).

Definition P_bottomup (n_target m : Z) : res (gmap key2 Q) :=
  m_inv <-- Mp.div 1 (inject_Z m) ;;
  Val (snd (P_loop m m_inv (range 1 (n_target + 1)))).

Definition prob_r2_bottomup_float (m n : Z) : res Q :=
  P_values <-- P_bottomup n m ;;
  let max_j := n / 2 in
  Val (fold_left (fun result j =>
                    match P_values !! (j, 0) with
                    | Some v => (result + v)%Q
                    | None => result
                    end)
                 (range 1 (max_j + 1)) 0%Q).

(** ** Associated Stirling numbers, memoised:
       [sbp_r3_assoc_stirling_memoization] *)

Definition invalid_stirling (n k : Z) : bool :=
  ((n <=? 0) && (0 <? k)) || ((0 <? n) && (k <=? 0)) || (n <? 2 * k).

Fixpoint assoc_stirling_rec (fuel : nat) (n k : Z) (memo : gmap key2 Z)
  : res (Z * gmap key2 Z) :=
  match fuel with
  | O => OutOfFuel
  | S fuel' =>
      match memo !! (n, k) with
      | Some v => Val (v, memo)
      | None =>
          if invalid_stirling n k then Val (0, memo)
          else if (n =? 0) && (k =? 0) then Val (1, memo)
          else
            '(r1, memo1) <-- assoc_stirling_rec fuel' (n - 1) k memo ;;
            let term1 := k * r1 in
            '(r2, memo2) <-- assoc_stirling_rec fuel' (n - 2) (k - 1) memo1 ;;
            let term2 := (n - 1) * r2 in
            let result := term1 + term2 in
            Val (result, <[(n, k) := result]> memo2)
      end
  end.

(** [assoc_stirling(n, k, memo=None)]: the first statement is the
    membership test [(n, k) in memo], which raises [TypeError] on [None];
    every recursive call passes the caller's dictionary on. *)
Definition assoc_stirling (n k : Z) (memo : option (gmap key2 Z))
  : res (Z * gmap key2 Z) :=
  match memo with
  | None => Raise TypeError
  | Some d => assoc_stirling_rec (S (Z.to_nat n)) n k d
  end.

Definition prob_r3_memo (m n : Z) : res Q :=
  let max_k := n / 2 in
  '(total, _) <--
    for_each (fun '(total, memo) k =>
                '(stirling_val, memo') <-- assoc_stirling n k (Some memo) ;;
                if stirling_val =? 0 then Val (total, memo')
                else
                  let term := Mp.binomial m k * Mp.factorial k * stirling_val in
                  Val (total + term, memo'))
             (range 1 (max_k + 1)) (0, ∅) ;;
  denominator <-- Mp.power (inject_Z m) n ;;
  Mp.div (inject_Z total) denominator.

(** ** Associated Stirling numbers, bottom-up:
       [sbp_r3_assoc_stirling_bottomup] *)

Definition S_cell (n : Z) (prev2 prev1 : gmap Z Z) (curr : gmap Z Z) (k : Z)
  : gmap Z Z :=
  if n <? 2 * k then curr
  else
    let result := 0 in
    let result :=
      match prev1 !! k with
      | Some v => result + k * v
      | None => result
      end in
    let result :=
      match prev2 !! (k - 1) with
      | Some v => result + (n - 1) * v
      | None => result
      end in
    if result =? 0 then curr else <[k := result]> curr.

(** One turn of the loop on the pair [(prev2, prev1)]. *)
Definition S_step (st : gmap Z Z * gmap Z Z) (n : Z) : gmap Z Z * gmap Z Z :=
  let '(prev2, prev1) := st in
  let max_k := n / 2 in
  let curr := fold_left (S_cell n prev2 prev1) (range 1 (max_k + 1)) ∅ in
  (prev1, curr).

Definition S_loop (ns : list Z) : gmap Z Z * gmap Z Z :=
  fold_left S_step ns ({[ 0 := 1 ]}, ∅).

Definition assoc_stirling_bottomup (n_target : Z) : gmap Z Z :=
  if n_target =? 0 then {[ 0 := 1 ]}
  else
    let '(prev2, prev1) := S_loop (range 2 (n_target + 1)) in
    if 2 <=? n_target then prev1 else prev2.

Definition prob_r3_bottomup (m n : Z) : res Q :=
  let stirling_values := assoc_stirling_bottomup n in
  let max_k := n / 2 in
  let total :=
    fold_left (fun total k =>
                 match stirling_values !! k with
                 | Some stirling_val =>
                     total + Mp.binomial m k * Mp.factorial k * stirling_val
                 | None => total
                 end)
              (range 1 (max_k + 1)) 0 in
  denominator <-- Mp.power (inject_Z m) n ;;
  Mp.div (inject_Z total) denominator.

(** ** The recurrences as mathematical functions

    The pure counterparts of the engines, by recursion on the number of
    people; the memoised and the tabulated code are compared with them. *)

(** [sumZ N f] is [f 0 + ... + f (N-1)]. *)
Fixpoint sumZ (N : nat) (f : nat -> Z) : Z :=
  match N with
  | O => 0
  | S N' => sumZ N' f + f N'
  end.

(** Falling factorial [m (m-1) ... (m-r+1)]. *)
Fixpoint ff (m : Z) (r : nat) : Z :=
  match r with
  | O => 1
  | S r' => m * ff (m - 1) r'
  end.

Fixpoint Tz (n : nat) (j k m : Z) : Z :=
  if invalid_state j k (Z.of_nat n) m then 0
  else
    match n with
    | O => 1
    | S n' =>
        j * Tz n' j k m + (k + 1) * Tz n' (j - 1) (k + 1) m
        + (m - j - k + 1) * Tz n' j (k - 1) m
    end.

Fixpoint Sz (n : nat) (k : Z) : Z :=
  match n with
  | O => if k =? 0 then 1 else 0
  | S n' =>
      if (k <=? 0) || (Z.of_nat n <? 2 * k) then 0
      else
        k * Sz n' k
        + Z.of_nat n' * match n' with
                        | O => 0
                        | S n'' => Sz n'' (k - 1)
                        end
  end.

(** The value of state [(j, k, n, m)], for any integer [n]. *)
Definition T_val (j k n m : Z) : Z :=
  if n <? 0 then 0 else Tz (Z.to_nat n) j k m.

Definition S_val (n k : Z) : Z :=
  if n <? 0 then 0 else Sz (Z.to_nat n) k.

(** The probability of state [(j, k, n, m)]: the count over [m^n]. *)
Definition P_val (j k n m : Z) : Q :=
  (inject_Z (T_val j k n m) / inject_Z m ^ n)%Q.

(** The number of assignments of [n] people to [m] days in which no day
    has exactly one birthday, as a sum of associated Stirling numbers. *)
Definition strong_count (m : Z) (n : nat) : Z :=
  sumZ (S n) (fun i => ff m i * Sz n (Z.of_nat i)).

(** The inclusion-exclusion sum of the direct formula with [k = 0]. *)
Definition incl_excl (m : Z) (n : nat) : Z :=
  sumZ (S n) (fun j =>
    (-1) ^ Z.of_nat j * Z.of_nat (Mp.choose n j) * ff m j
    * (m - Z.of_nat j) ^ Z.of_nat (n - j)).

(** The direct formula as the specification writes it:
    [m^-n * sum_{j=k}^{n} (-1)^(j-k) C(j,k) C(m,j) C(n,j) j! (m-j)^(n-j)],
    the power being [1] for exponent [0] whatever the base. *)
Definition spec_power (x e : Z) : Z := if e =? 0 then 1 else x ^ e.

Definition spec_summand (m n k j : Z) : Z :=
  (-1) ^ (j - k) * Mp.binomial j k * Mp.binomial m j * Mp.binomial n j
  * Mp.factorial j * spec_power (m - j) (n - j).

Definition spec_direct (m n k : Z) : Q :=
  (inject_Z m ^ (- n)
   * inject_Z (sumZ (Z.to_nat (n - k + 1))
                    (fun i => spec_summand m n k (k + Z.of_nat i))))%Q.

(** Memo tables and layers that hold nothing but true values. *)
Definition T_memo_ok (memo : gmap key4 Z) : Prop :=
  forall j k n m v, memo !! (j, k, n, m) = Some v -> v = T_val j k n m.

Definition S_memo_ok (memo : gmap key2 Z) : Prop :=
  forall n k v, memo !! (n, k) = Some v -> v = S_val n k.

Definition P_memo_ok (memo : gmap key4 Q) : Prop :=
  forall j k n m v, memo !! (j, k, n, m) = Some v -> (v == P_val j k n m)%Q.

(** The validity predicates of the specification, section 4.2 and 4.3. *)
Definition valid_state (j k n m : Z) : Prop :=
  0 <= j /\ 0 <= k /\ 2 * j + k <= n /\ j + k <= m.

Definition valid_stirling (n k : Z) : Prop :=
  ~ ((n <= 0 /\ 0 < k) \/ (0 < n /\ k <= 0) \/ n < 2 * k).

(** Reading a sparse layer: an absent key stands for zero. *)
Definition entry {K : Type} `{Countable K} (d : gmap K Z) (x : K) : Z :=
  match d !! x with Some v => v | None => 0 end.

Definition entryQ {K : Type} `{Countable K} (d : gmap K Q) (x : K) : Q :=
  match d !! x with Some v => v | None => 0%Q end.

(** ** Quantities the proofs are stated with *)

(** The closed form of the occupancy count: pick and order [j + k] days,
    choose the [k] people who are alone, split the others into [j] groups of
    at least two. *)
Definition T_closed (n j k : nat) (m : Z) : Z :=
  ff m (j + k) * Z.of_nat (Mp.choose n k) * Sz (n - k) (Z.of_nat j).

(** The summands of [strong_count] and [incl_excl]. *)
Definition a_term (m : Z) (n i : nat) : Z := ff m i * Sz n (Z.of_nat i).

Definition d_term (m : Z) (n j : nat) : Z :=
  (-1) ^ Z.of_nat j * Z.of_nat (Mp.choose n j) * ff m j
  * (m - Z.of_nat j) ^ Z.of_nat (n - j).

(** All the states of [n] people with fewer than [N] days of either kind. *)
Definition T_total (N n : nat) (m : Z) : Z :=
  sumZ N (fun j => sumZ N (fun k => Tz n (Z.of_nat j) (Z.of_nat k) m)).

(** The numerators the three kinds of assembler add up. *)
Definition direct_sum (m n k : Z) : Z :=
  fold_left (fun acc j => acc + prob_term m n k j) (range k (n + 1)) 0.

Definition T_sum (m n : Z) : Z :=
  fold_left (fun acc j => acc + T_val j 0 n m) (range 1 (n / 2 + 1)) 0.

Definition S_sum (m n : Z) : Z :=
  fold_left (fun acc k => acc + Mp.binomial m k * Mp.factorial k * S_val n k)
            (range 1 (n / 2 + 1)) 0.

(** The sparse layers: what a cell writes, seen as an optional update. *)
Definition put {K V : Type} `{Countable K} (h : K -> option V)
  (curr : gmap K V) (x : K) : gmap K V :=
  match h x with
  | Some v => <[x := v]> curr
  | None => curr
  end.

(** A value as a sparse layer keeps it: zero is left out. *)
Definition sparse (v : Z) : option Z := if v =? 0 then None else Some v.

(** The value [T_cell] computes from the previous layer. *)
Definition T_new (m : Z) (prev : gmap key2 Z) (j k : Z) : Z :=
  j * entry prev (j, k)
  + (if 0 <? j then (k + 1) * entry prev (j - 1, k + 1) else 0)
  + (if 0 <? k then (m - j - k + 1) * entry prev (j, k - 1) else 0).

Definition T_upd (m n : Z) (prev : gmap key2 Z) (x : key2) : option Z :=
  let '(j, k) := x in
  if (n <? 2 * j + k) || (m <? j + k) then None else sparse (T_new m prev j k).

(** The value [S_cell] computes from the two previous layers. *)
Definition S_new (n : Z) (prev2 prev1 : gmap Z Z) (k : Z) : Z :=
  k * entry prev1 k + (n - 1) * entry prev2 (k - 1).

Definition S_upd (n : Z) (prev2 prev1 : gmap Z Z) (k : Z) : option Z :=
  if n <? 2 * k then None else sparse (S_new n prev2 prev1 k).

(** The value [P_cell] computes from the previous layer. *)
Definition P_new (m : Z) (m_inv : Q) (prev : gmap key2 Q) (j k : Z) : Q :=
  let result := 0%Q in
  let result :=
    match prev !! (j, k) with
    | Some v => (result + inject_Z j * v)%Q
    | None => result
    end in
  let result :=
    if 0 <? j then
      match prev !! (j - 1, k + 1) with
      | Some v => (result + inject_Z (k + 1) * v)%Q
      | None => result
      end
    else result in
  let result :=
    if 0 <? k then
      match prev !! (j, k - 1) with
      | Some v => (result + inject_Z (m - j - k + 1) * v)%Q
      | None => result
      end
    else result in
  (result * m_inv)%Q.

Definition P_upd (m n : Z) (m_inv : Q) (prev : gmap key2 Q) (x : key2)
  : option Q :=
  let '(j, k) := x in
  if n <? 2 * j + k then None
  else if Qeq_bool (P_new m m_inv prev j k) 0 then None
       else Some (P_new m m_inv prev j k).

(** A layer of the probability table that holds the probabilities of the
    states of [n] people, the zero ones left out. *)
Definition P_layer_ok (L : gmap key2 Q) (n m : Z) : Prop :=
  forall j k,
    match L !! (j, k) with
    | Some v => (v == P_val j k n m)%Q /\ ~ (v == 0)%Q
    | None => (P_val j k n m == 0)%Q
    end.

(** [returns c x]: the call [c] returns a value, equal to [x] as a rational. *)
Definition returns (c : res Q) (x : Q) : Prop :=
  exists q, c = Val q /\ (q == x)%Q.

(** [returns_probability c]: the call [c] returns a value in [[0, 1]]. *)
Definition returns_probability (c : res Q) : Prop :=
  exists q, c = Val q /\ (0 <= q <= 1)%Q.

(** The common value of the assemblers: the number of assignments with no
    singleton day over the number of all assignments. *)
Definition strong_ratio (m n : Z) : Q :=
  (inject_Z (strong_count m (Z.to_nat n)) / inject_Z m ^ n)%Q.

(** [no_type_error c]: whatever the call [c] does, it does not raise
    [TypeError]. *)
Definition no_type_error {A : Type} (c : res A) : Prop := c <> Raise TypeError.

(** ** Validity and the pure recurrences *)

Lemma invalid_state_false j k n m :
  invalid_state j k n m = false <-> valid_state j k n m.
Proof.
  unfold invalid_state, valid_state.
  rewrite !orb_false_iff, !Z.ltb_ge. lia.
Qed.

Lemma invalid_state_true j k n m :
  invalid_state j k n m = true <-> ~ valid_state j k n m.
Proof.
  rewrite <- invalid_state_false.
  destruct (invalid_state j k n m); intuition congruence.
Qed.

Lemma invalid_stirling_false n k :
  invalid_stirling n k = false <-> valid_stirling n k.
Proof.
  unfold invalid_stirling, valid_stirling.
  rewrite !orb_false_iff, !andb_false_iff, !Z.ltb_ge, !Z.leb_gt. lia.
Qed.

Lemma invalid_stirling_true n k :
  invalid_stirling n k = true <-> ~ valid_stirling n k.
Proof.
  rewrite <- invalid_stirling_false.
  destruct (invalid_stirling n k); intuition congruence.
Qed.

Lemma Tz_unfold n j k m :
  Tz n j k m =
  if invalid_state j k (Z.of_nat n) m then 0
  else match n with
       | O => 1
       | S n' =>
           j * Tz n' j k m + (k + 1) * Tz n' (j - 1) (k + 1) m
           + (m - j - k + 1) * Tz n' j (k - 1) m
       end.
Proof. destruct n; reflexivity. Qed.

Lemma T_val_invalid j k n m :
  invalid_state j k n m = true -> T_val j k n m = 0.
Proof.
  intros H. unfold T_val. destruct (n <? 0) eqn:Hn; [reflexivity|].
  apply Z.ltb_ge in Hn. rewrite Tz_unfold, Z2Nat.id, H by lia. reflexivity.
Qed.

Lemma T_val_base m : 0 <= m -> T_val 0 0 0 m = 1.
Proof.
  intros Hm. unfold T_val. simpl. change (Z.of_nat 0) with 0.
  replace (invalid_state 0 0 0 m) with false; [reflexivity|].
  symmetry. apply invalid_state_false. unfold valid_state. lia.
Qed.

Lemma T_val_rec j k n m :
  valid_state j k n m -> 0 < n ->
  T_val j k n m =
  j * T_val j k (n - 1) m + (k + 1) * T_val (j - 1) (k + 1) (n - 1) m
  + (m - j - k + 1) * T_val j (k - 1) (n - 1) m.
Proof.
  intros Hv Hn. unfold T_val.
  replace (n <? 0) with false by (symmetry; apply Z.ltb_ge; lia).
  replace (n - 1 <? 0) with false by (symmetry; apply Z.ltb_ge; lia).
  replace (Z.to_nat n) with (S (Z.to_nat (n - 1))) by lia.
  rewrite Tz_unfold.
  replace (Z.of_nat (S (Z.to_nat (n - 1)))) with n by lia.
  apply invalid_state_false in Hv. rewrite Hv. reflexivity.
Qed.

Lemma Sz_unfold n k :
  Sz (S n) k =
  if (k <=? 0) || (Z.of_nat (S n) <? 2 * k) then 0
  else k * Sz n k
       + Z.of_nat n * match n with O => 0 | S n'' => Sz n'' (k - 1) end.
Proof. reflexivity. Qed.

Lemma S_val_invalid n k :
  0 <= n -> invalid_stirling n k = true -> S_val n k = 0.
Proof.
  intros Hn H. unfold S_val.
  replace (n <? 0) with false by (symmetry; apply Z.ltb_ge; lia).
  destruct (Z.to_nat n) as [|n'] eqn:E.
  - simpl. destruct (k =? 0) eqn:Hk; [|reflexivity].
    apply Z.eqb_eq in Hk. apply invalid_stirling_true in H.
    exfalso. apply H. unfold valid_stirling. lia.
  - rewrite Sz_unfold.
    destruct ((k <=? 0) || (Z.of_nat (S n') <? 2 * k)) eqn:Hg; [reflexivity|].
    apply orb_false_iff in Hg. destruct Hg as [Hg1 Hg2].
    apply Z.leb_gt in Hg1. apply Z.ltb_ge in Hg2.
    apply invalid_stirling_true in H.
    exfalso. apply H. unfold valid_stirling. lia.
Qed.

Lemma S_val_base : S_val 0 0 = 1.
Proof. reflexivity. Qed.

Lemma S_val_rec n k :
  valid_stirling n k -> 0 < n ->
  S_val n k = k * S_val (n - 1) k + (n - 1) * S_val (n - 2) (k - 1).
Proof.
  intros Hv Hn. unfold valid_stirling in Hv. unfold S_val.
  replace (n <? 0) with false by (symmetry; apply Z.ltb_ge; lia).
  replace (n - 1 <? 0) with false by (symmetry; apply Z.ltb_ge; lia).
  replace (n - 2 <? 0) with false by (symmetry; apply Z.ltb_ge; lia).
  replace (Z.to_nat n) with (S (S (Z.to_nat (n - 2)))) by lia.
  replace (Z.to_nat (n - 1)) with (S (Z.to_nat (n - 2))) by lia.
  rewrite (Sz_unfold (S (Z.to_nat (n - 2))) k).
  replace ((k <=? 0) || (Z.of_nat (S (S (Z.to_nat (n - 2)))) <? 2 * k))
    with false.
  2:{ symmetry. apply orb_false_iff. split.
      - apply Z.leb_gt. lia.
      - apply Z.ltb_ge. lia. }
  f_equal. f_equal. lia.
Qed.

(** ** The numeric kernel *)

Lemma Qeq_bool_inject_Z_0 z : Qeq_bool (inject_Z z) 0 = (z =? 0).
Proof.
  unfold Qeq_bool, inject_Z. simpl. rewrite Z.mul_1_r.
  destruct z; reflexivity.
Qed.

Lemma Mp_div_nonzero x z : z <> 0 -> Mp.div x (inject_Z z) = Val (x / inject_Z z)%Q.
Proof.
  intros Hz. unfold Mp.div. rewrite Qeq_bool_inject_Z_0.
  apply Z.eqb_neq in Hz. rewrite Hz. reflexivity.
Qed.

Lemma Mp_power_nonzero z n : z <> 0 -> Mp.power (inject_Z z) n = Val (inject_Z z ^ n)%Q.
Proof.
  intros Hz. unfold Mp.power. rewrite Qeq_bool_inject_Z_0.
  apply Z.eqb_neq in Hz. rewrite Hz, andb_false_r. reflexivity.
Qed.

Lemma Mp_power_nonneg x n : 0 <= n -> Mp.power x n = Val (x ^ n)%Q.
Proof.
  intros Hn. unfold Mp.power.
  replace (n <? 0) with false by (symmetry; apply Z.ltb_ge; lia).
  reflexivity.
Qed.

(** ** The memoised recursions compute the pure recurrences *)

Lemma T_memo_ok_empty : T_memo_ok ∅.
Proof. intros j k n m v H. rewrite lookup_empty in H. discriminate. Qed.

Lemma T_memo_ok_insert memo j k n m :
  T_memo_ok memo -> T_memo_ok (<[(j, k, n, m) := T_val j k n m]> memo).
Proof.
  intros Hok j' k' n' m' v H.
  destruct (decide ((j, k, n, m) = (j', k', n', m'))) as [E|E].
  - inversion E; subst. rewrite lookup_insert_eq in H. congruence.
  - rewrite lookup_insert_ne in H by assumption. eauto.
Qed.

Lemma not_base_positive j k n m :
  valid_state j k n m -> (j =? 0) && (k =? 0) && (n =? 0) = false -> 0 < n.
Proof.
  unfold valid_state. intros Hv Hb.
  destruct (Z.eq_dec n 0) as [->|]; [|lia].
  assert (j = 0) as -> by lia. assert (k = 0) as -> by lia.
  discriminate.
Qed.

Lemma T_rec_correct fuel : forall j k n m memo,
  T_memo_ok memo -> (Z.to_nat n < fuel)%nat ->
  exists memo',
    T_rec fuel j k n m memo = Val (T_val j k n m, memo') /\ T_memo_ok memo'.
Proof.
  induction fuel as [|fuel IH]; intros j k n m memo Hok Hf; [lia|].
  simpl. destruct (memo !! (j, k, n, m)) as [v|] eqn:Hl.
  - exists memo. rewrite (Hok _ _ _ _ _ Hl). auto.
  - destruct (invalid_state j k n m) eqn:Hi.
    + exists memo. rewrite T_val_invalid by assumption. auto.
    + apply invalid_state_false in Hi.
      destruct ((j =? 0) && (k =? 0) && (n =? 0)) eqn:Hb.
      * apply andb_true_iff in Hb. destruct Hb as [Hb Hn].
        apply andb_true_iff in Hb. destruct Hb as [Hj Hk].
        apply Z.eqb_eq in Hj, Hk, Hn. subst.
        exists memo. rewrite T_val_base by (unfold valid_state in Hi; lia).
        auto.
      * pose proof (not_base_positive _ _ _ _ Hi Hb) as Hn.
        destruct (IH j k (n - 1) m memo Hok) as (memo1 & E1 & Hok1); [lia|].
        rewrite E1. simpl.
        destruct (IH (j - 1) (k + 1) (n - 1) m memo1 Hok1)
          as (memo2 & E2 & Hok2); [lia|].
        rewrite E2. simpl.
        destruct (IH j (k - 1) (n - 1) m memo2 Hok2)
          as (memo3 & E3 & Hok3); [lia|].
        rewrite E3. simpl.
        rewrite <- T_val_rec by assumption.
        eexists. split; [reflexivity|]. apply T_memo_ok_insert. assumption.
Qed.

Lemma T_correct j k n m memo :
  T_memo_ok memo ->
  exists memo',
    T j k n m (Some memo) = Val (T_val j k n m, memo') /\ T_memo_ok memo'.
Proof. intros Hok. unfold T. apply T_rec_correct; [assumption|lia]. Qed.

Lemma S_memo_ok_empty : S_memo_ok ∅.
Proof. intros n k v H. rewrite lookup_empty in H. discriminate. Qed.

Lemma S_memo_ok_insert memo n k :
  S_memo_ok memo -> S_memo_ok (<[(n, k) := S_val n k]> memo).
Proof.
  intros Hok n' k' v H.
  destruct (decide ((n, k) = (n', k'))) as [E|E].
  - inversion E; subst. rewrite lookup_insert_eq in H. congruence.
  - rewrite lookup_insert_ne in H by assumption. eauto.
Qed.

Lemma assoc_stirling_rec_correct fuel : forall n k memo,
  S_memo_ok memo -> 0 <= n -> 0 <= k -> (Z.to_nat n < fuel)%nat ->
  exists memo',
    assoc_stirling_rec fuel n k memo = Val (S_val n k, memo')
    /\ S_memo_ok memo'.
Proof.
  induction fuel as [|fuel IH]; intros n k memo Hok Hn Hk Hf; [lia|].
  simpl. destruct (memo !! (n, k)) as [v|] eqn:Hl.
  - exists memo. rewrite (Hok _ _ _ Hl). auto.
  - destruct (invalid_stirling n k) eqn:Hi.
    + exists memo. rewrite S_val_invalid by assumption. auto.
    + apply invalid_stirling_false in Hi.
      destruct ((n =? 0) && (k =? 0)) eqn:Hb.
      * apply andb_true_iff in Hb. destruct Hb as [Hn0 Hk0].
        apply Z.eqb_eq in Hn0, Hk0. subst. exists memo. auto.
      * assert (0 < n /\ 0 < k /\ 2 * k <= n) as (Hn1 & Hk1 & Hnk).
        { unfold valid_stirling in Hi.
          destruct (Z.eq_dec n 0) as [->|].
          - assert (k = 0) as -> by lia. discriminate.
          - lia. }
        destruct (IH (n - 1) k memo Hok) as (memo1 & E1 & Hok1); [lia..|].
        rewrite E1. simpl.
        destruct (IH (n - 2) (k - 1) memo1 Hok1) as (memo2 & E2 & Hok2);
          [lia..|].
        rewrite E2. simpl.
        rewrite <- S_val_rec by (assumption || lia).
        eexists. split; [reflexivity|]. apply S_memo_ok_insert. assumption.
Qed.

Lemma assoc_stirling_correct n k memo :
  S_memo_ok memo -> 0 <= n -> 0 <= k ->
  exists memo',
    assoc_stirling n k (Some memo) = Val (S_val n k, memo')
    /\ S_memo_ok memo'.
Proof.
  intros Hok Hn Hk. unfold assoc_stirling.
  apply assoc_stirling_rec_correct; [assumption..|lia].
Qed.

(** ** The probability recurrence *)

Lemma inject_Z_nonzero z : z <> 0 -> ~ (inject_Z z == 0)%Q.
Proof.
  intros Hz H. apply Hz. unfold Qeq in H. simpl in H. lia.
Qed.

Lemma P_val_invalid j k n m :
  invalid_state j k n m = true -> (P_val j k n m == 0)%Q.
Proof.
  intros H. unfold P_val. rewrite T_val_invalid by assumption.
  unfold Qdiv. apply Qmult_0_l.
Qed.

Lemma P_val_base m : 0 <= m -> (P_val 0 0 0 m == 1)%Q.
Proof.
  intros H. unfold P_val. rewrite T_val_base by assumption. reflexivity.
Qed.

Lemma inject_Z_lin3 a x b y c z :
  (inject_Z (a * x + b * y + c * z)
   == inject_Z a * inject_Z x + inject_Z b * inject_Z y
      + inject_Z c * inject_Z z)%Q.
Proof. rewrite !inject_Z_plus, !inject_Z_mult. reflexivity. Qed.

Lemma P_val_rec j k n m :
  valid_state j k n m -> 0 < n -> m <> 0 ->
  (P_val j k n m ==
   1 / inject_Z m *
   (inject_Z j * P_val j k (n - 1) m
    + inject_Z (k + 1) * P_val (j - 1) (k + 1) (n - 1) m
    + inject_Z (m - j - k + 1) * P_val j (k - 1) (n - 1) m))%Q.
Proof.
  intros Hv Hn Hm. unfold P_val.
  rewrite T_val_rec by assumption.
  rewrite inject_Z_lin3.
  pose proof (inject_Z_nonzero _ Hm) as Hm'.
  assert (inject_Z m ^ n == inject_Z m * inject_Z m ^ (n - 1))%Q as Hp.
  { replace n with (1 + (n - 1)) at 1 by lia.
    rewrite Qpower_plus by assumption. reflexivity. }
  rewrite Hp.
  pose proof (Qpower_not_0 (inject_Z m) (n - 1) Hm') as Hq.
  remember (inject_Z m ^ (n - 1))%Q as p eqn:Ep.
  remember (inject_Z m) as a eqn:Ea.
  clear Ep Ea Hp. field. split; assumption.
Qed.

Lemma P_memo_ok_empty : P_memo_ok ∅.
Proof. intros j k n m v H. rewrite lookup_empty in H. discriminate. Qed.

Lemma P_memo_ok_insert memo j k n m v :
  P_memo_ok memo -> (v == P_val j k n m)%Q ->
  P_memo_ok (<[(j, k, n, m) := v]> memo).
Proof.
  intros Hok Hv j' k' n' m' v' H.
  destruct (decide ((j, k, n, m) = (j', k', n', m'))) as [E|E].
  - inversion E; subst. rewrite lookup_insert_eq in H.
    inversion H; subst. assumption.
  - rewrite lookup_insert_ne in H by assumption. eauto.
Qed.

Lemma P_rec_correct fuel : forall j k n m memo,
  m <> 0 -> P_memo_ok memo -> (Z.to_nat n < fuel)%nat ->
  exists v memo',
    P_rec fuel j k n m memo = Val (v, memo')
    /\ (v == P_val j k n m)%Q /\ P_memo_ok memo'.
Proof.
  induction fuel as [|fuel IH]; intros j k n m memo Hm Hok Hf; [lia|].
  simpl. destruct (memo !! (j, k, n, m)) as [v|] eqn:Hl.
  - exists v, memo. split; [reflexivity|]. split; [eauto|assumption].
  - destruct (invalid_state j k n m) eqn:Hi.
    + exists 0%Q, memo. split; [reflexivity|]. split; [|assumption].
      symmetry. apply P_val_invalid. assumption.
    + apply invalid_state_false in Hi.
      destruct ((j =? 0) && (k =? 0) && (n =? 0)) eqn:Hb.
      * apply andb_true_iff in Hb. destruct Hb as [Hb Hn].
        apply andb_true_iff in Hb. destruct Hb as [Hj Hk].
        apply Z.eqb_eq in Hj, Hk, Hn. subst.
        exists 1%Q, memo. split; [reflexivity|]. split; [|assumption].
        symmetry. apply P_val_base. unfold valid_state in Hi. lia.
      * pose proof (not_base_positive _ _ _ _ Hi Hb) as Hn.
        rewrite Mp_div_nonzero by assumption. simpl.
        destruct (IH j k (n - 1) m memo Hm Hok)
          as (v1 & memo1 & E1 & Hv1 & Hok1); [lia|].
        rewrite E1. simpl.
        destruct (IH (j - 1) (k + 1) (n - 1) m memo1 Hm Hok1)
          as (v2 & memo2 & E2 & Hv2 & Hok2); [lia|].
        rewrite E2. simpl.
        destruct (IH j (k - 1) (n - 1) m memo2 Hm Hok2)
          as (v3 & memo3 & E3 & Hv3 & Hok3); [lia|].
        rewrite E3. simpl.
        eexists _, _. split; [reflexivity|].
        assert (1 / inject_Z m *
                (inject_Z j * v1 + inject_Z (k + 1) * v2
                 + inject_Z (m - j - k + 1) * v3)
                == P_val j k n m)%Q as Hres.
        { rewrite Hv1, Hv2, Hv3. symmetry. apply P_val_rec; assumption. }
        split; [exact Hres|]. apply P_memo_ok_insert; assumption.
Qed.

Lemma P_correct j k n m memo :
  m <> 0 -> P_memo_ok memo ->
  exists v memo',
    P j k n m (Some memo) = Val (v, memo')
    /\ (v == P_val j k n m)%Q /\ P_memo_ok memo'.
Proof. intros Hm Hok. unfold P. apply P_rec_correct; [assumption..|lia]. Qed.

(** ** Ranges, loops and finite sums *)

Lemma range_nil a b : b <= a -> range a b = [].
Proof. intros H. unfold range. apply seqZ_nil. lia. Qed.

Lemma range_snoc a b : a <= b -> range a (b + 1) = range a b ++ [b].
Proof.
  intros H. unfold range.
  replace (b + 1 - a) with (Z.of_nat (S (Z.to_nat (b - a)))) by lia.
  rewrite seqZ_S, Z2Nat.id by lia. do 2 f_equal. lia.
Qed.

Lemma elem_of_range x a b : x ∈ range a b <-> a <= x < b.
Proof. unfold range. rewrite elem_of_seqZ. lia. Qed.

Lemma fold_left_ext {A B : Type} (f g : A -> B -> A) l :
  (forall a b, f a b = g a b) -> forall a, fold_left f l a = fold_left g l a.
Proof.
  intros E. induction l as [|x l IH]; intros a; simpl; [reflexivity|].
  rewrite E. apply IH.
Qed.

Lemma fold_left_add_init (f : Z -> Z) l : forall a,
  fold_left (fun acc j => acc + f j) l a
  = a + fold_left (fun acc j => acc + f j) l 0.
Proof.
  induction l as [|x l IH]; intros a; simpl; [lia|].
  rewrite IH, (IH (0 + f x)). lia.
Qed.

Lemma fold_range_sumZ (f : Z -> Z) a (N : nat) :
  fold_left (fun acc j => acc + f j) (range a (a + Z.of_nat N)) 0
  = sumZ N (fun i => f (a + Z.of_nat i)).
Proof.
  induction N as [|N IH].
  - rewrite range_nil by lia. reflexivity.
  - replace (a + Z.of_nat (S N)) with (a + Z.of_nat N + 1) by lia.
    rewrite range_snoc, fold_left_app by lia. simpl. rewrite IH. reflexivity.
Qed.

Lemma sumZ_ext N f g :
  (forall i, (i < N)%nat -> f i = g i) -> sumZ N f = sumZ N g.
Proof.
  induction N as [|N IH]; intros E; simpl; [reflexivity|].
  rewrite IH, E by (intros; try apply E; lia). reflexivity.
Qed.

Lemma sumZ_add N f g :
  sumZ N (fun i => f i + g i) = sumZ N f + sumZ N g.
Proof. induction N as [|N IH]; simpl; lia. Qed.

Lemma sumZ_sub N f g :
  sumZ N (fun i => f i - g i) = sumZ N f - sumZ N g.
Proof. induction N as [|N IH]; simpl; lia. Qed.

Lemma sumZ_scal N c f : sumZ N (fun i => c * f i) = c * sumZ N f.
Proof. induction N as [|N IH]; simpl; lia. Qed.

Lemma sumZ_zero N f : (forall i, (i < N)%nat -> f i = 0) -> sumZ N f = 0.
Proof.
  induction N as [|N IH]; intros E; simpl; [reflexivity|].
  rewrite IH, E by (intros; try apply E; lia). reflexivity.
Qed.

Lemma sumZ_shift N f : sumZ (S N) f = f O + sumZ N (fun i => f (S i)).
Proof. induction N as [|N IH]; simpl in *; lia. Qed.

(** A sum may be cut where its terms vanish. *)
Lemma sumZ_cut N M f :
  (N <= M)%nat -> (forall i, (N <= i < M)%nat -> f i = 0) ->
  sumZ M f = sumZ N f.
Proof.
  intros Hle. induction M as [|M IH]; intros E.
  - replace N with O by lia. reflexivity.
  - destruct (Nat.eq_dec N (S M)) as [->|Hne]; [reflexivity|].
    simpl. rewrite IH, E by (intros; try apply E; lia). lia.
Qed.

Lemma sumZ_nonneg N f : (forall i, (i < N)%nat -> 0 <= f i) -> 0 <= sumZ N f.
Proof.
  induction N as [|N IH]; intros E; simpl; [lia|].
  assert (0 <= sumZ N f) by (apply IH; intros; apply E; lia).
  assert (0 <= f N) by (apply E; lia). lia.
Qed.

Lemma sumZ_le N f g :
  (forall i, (i < N)%nat -> f i <= g i) -> sumZ N f <= sumZ N g.
Proof.
  induction N as [|N IH]; intros E; simpl; [lia|].
  assert (sumZ N f <= sumZ N g) by (apply IH; intros; apply E; lia).
  assert (f N <= g N) by (apply E; lia). lia.
Qed.

Lemma sumZ_term_le N f i :
  (forall i, (i < N)%nat -> 0 <= f i) -> (i < N)%nat -> f i <= sumZ N f.
Proof.
  induction N as [|N IH]; intros E Hi; [lia|]. simpl.
  assert (0 <= f N) by (apply E; lia).
  assert (0 <= sumZ N f) by (apply sumZ_nonneg; intros; apply E; lia).
  destruct (Nat.eq_dec i N) as [->|Hne]; [lia|].
  assert (f i <= sumZ N f) by (apply IH; [intros; apply E|]; lia). lia.
Qed.

(** Exchange of two finite sums. *)
Lemma sumZ_swap N M (f : nat -> nat -> Z) :
  sumZ N (fun i => sumZ M (fun j => f i j))
  = sumZ M (fun j => sumZ N (fun i => f i j)).
Proof.
  induction N as [|N IH]; simpl.
  - symmetry. apply sumZ_zero. reflexivity.
  - rewrite IH, <- sumZ_add. reflexivity.
Qed.

(** ** Binomial coefficients and falling factorials *)

Lemma choose_gt n : forall k, (n < k)%nat -> Mp.choose n k = 0%nat.
Proof.
  induction n as [|n IH]; intros [|k] H; simpl; try lia.
  rewrite !IH by lia. reflexivity.
Qed.

Lemma choose_0 n : Mp.choose n 0 = 1%nat.
Proof. destruct n; reflexivity. Qed.

Lemma choose_SS n k :
  Mp.choose (S n) (S k) = (Mp.choose n k + Mp.choose n (S k))%nat.
Proof. reflexivity. Qed.

Lemma choose_absorb n : forall k,
  Z.of_nat (S k) * Z.of_nat (Mp.choose n (S k))
  = (Z.of_nat n - Z.of_nat k) * Z.of_nat (Mp.choose n k).
Proof.
  induction n as [|n IH]; intros k.
  - destruct k; simpl; lia.
  - destruct k as [|k].
    + pose proof (IH O) as H0. rewrite choose_SS, !choose_0 in *. lia.
    + pose proof (IH k) as H1. pose proof (IH (S k)) as H2.
      rewrite !choose_SS, !Nat2Z.inj_add. nia.
Qed.

Lemma choose_1 n : Mp.choose n 1 = n.
Proof.
  pose proof (choose_absorb n O) as H. rewrite choose_0 in H. lia.
Qed.

Lemma ff_S_r r : forall m, ff m (S r) = ff m r * (m - Z.of_nat r).
Proof.
  induction r as [|r IH]; intros m.
  - simpl. lia.
  - change (ff m (S (S r))) with (m * ff (m - 1) (S r)).
    rewrite IH. change (ff m (S r)) with (m * ff (m - 1) r). lia.
Qed.

Lemma ff_zero r : forall m, 0 <= m < Z.of_nat r -> ff m r = 0.
Proof.
  induction r as [|r IH]; intros m H; [lia|].
  simpl. destruct (Z.eq_dec m 0) as [->|Hm]; [reflexivity|].
  rewrite IH by lia. lia.
Qed.

Lemma ff_nonneg r : forall m, 0 <= m -> 0 <= ff m r.
Proof.
  induction r as [|r IH]; intros m H; simpl; [lia|].
  destruct (Z.eq_dec m 0) as [->|Hm]; [lia|].
  apply Z.mul_nonneg_nonneg; [lia|]. apply IH. lia.
Qed.

Lemma choose_fact_ff m : forall j,
  Z.of_nat (Mp.choose m j) * Z.of_nat (fact j) = ff (Z.of_nat m) j.
Proof.
  induction m as [|m IH]; intros j.
  - destruct j; simpl; lia.
  - destruct j as [|j]; [simpl; lia|].
    change (Mp.choose (S m) (S j)) with (Mp.choose m j + Mp.choose m (S j))%nat.
    change (fact (S j)) with (fact j + j * fact j)%nat.
    change (ff (Z.of_nat (S m)) (S j))
      with (Z.of_nat (S m) * ff (Z.of_nat (S m) - 1) j).
    replace (Z.of_nat (S m) - 1) with (Z.of_nat m) by lia.
    rewrite <- IH.
    pose proof (choose_absorb m j) as Ha.
    rewrite !Nat2Z.inj_add, Nat2Z.inj_mul. nia.
Qed.

Lemma binomial_factorial_ff m j :
  0 <= m -> 0 <= j ->
  Mp.binomial m j * Mp.factorial j = ff m (Z.to_nat j).
Proof.
  intros Hm Hj. unfold Mp.binomial, Mp.factorial.
  rewrite choose_fact_ff, Z2Nat.id by lia. reflexivity.
Qed.

(** ** Associated Stirling numbers *)

Lemma Sz_small n k : Z.of_nat n < 2 * k -> Sz n k = 0.
Proof.
  intros H. destruct n as [|n].
  - simpl. replace (k =? 0) with false by (symmetry; apply Z.eqb_neq; lia).
    reflexivity.
  - rewrite Sz_unfold.
    replace (Z.of_nat (S n) <? 2 * k) with true by (symmetry; apply Z.ltb_lt; lia).
    rewrite orb_true_r. reflexivity.
Qed.

Lemma Sz_neg n k : k < 0 -> Sz n k = 0.
Proof.
  intros H. destruct n as [|n].
  - simpl. replace (k =? 0) with false by (symmetry; apply Z.eqb_neq; lia).
    reflexivity.
  - rewrite Sz_unfold.
    replace (k <=? 0) with true by (symmetry; apply Z.leb_le; lia).
    reflexivity.
Qed.

Lemma Sz_S_nonpos n k : k <= 0 -> Sz (S n) k = 0.
Proof.
  intros H. rewrite Sz_unfold.
  replace (k <=? 0) with true by (symmetry; apply Z.leb_le; lia).
  reflexivity.
Qed.

(** The recurrence of [Sz] without its guard. *)
Lemma Sz_step n k :
  Sz (S n) k = k * Sz n k + Z.of_nat n * Sz (pred n) (k - 1).
Proof.
  destruct (Z_le_gt_dec k 0) as [Hk|Hk].
  - rewrite Sz_S_nonpos by assumption.
    rewrite (Sz_neg _ (k - 1)) by lia.
    destruct n as [|n].
    + simpl. destruct (k =? 0) eqn:E; [apply Z.eqb_eq in E|]; lia.
    + rewrite Sz_S_nonpos by assumption. lia.
  - destruct (Z_lt_ge_dec (Z.of_nat (S n)) (2 * k)) as [Hs|Hs].
    + rewrite (Sz_small (S n)), (Sz_small n) by lia.
      destruct n as [|n]; [simpl; lia|].
      simpl pred. rewrite (Sz_small n) by lia. lia.
    + rewrite Sz_unfold.
      replace (k <=? 0) with false by (symmetry; apply Z.leb_gt; lia).
      replace (Z.of_nat (S n) <? 2 * k) with false
        by (symmetry; apply Z.ltb_ge; lia).
      simpl orb. cbv iota. destruct n as [|n]; [lia|]. reflexivity.
Qed.

Lemma Sz_nonneg_pair n : forall k, 0 <= Sz n k /\ 0 <= Sz (S n) k.
Proof.
  induction n as [|n IH]; intros k.
  - split.
    + simpl. destruct (k =? 0); lia.
    + rewrite Sz_step. simpl. destruct (k =? 0) eqn:E;
        [apply Z.eqb_eq in E; subst|]; lia.
  - split; [apply IH|].
    destruct (Z_le_gt_dec k 0) as [Hk|Hk].
    + rewrite Sz_S_nonpos by assumption. lia.
    + rewrite Sz_step. simpl pred.
      destruct (IH k) as [_ H1]. destruct (IH (k - 1)) as [H2 _].
      apply Z.add_nonneg_nonneg; apply Z.mul_nonneg_nonneg; lia.
Qed.

Lemma Sz_nonneg n k : 0 <= Sz n k.
Proof. apply Sz_nonneg_pair. Qed.

(** ** Closed form of the occupancy counts *)

Lemma Tz_neg n j k m : j < 0 \/ k < 0 -> Tz n j k m = 0.
Proof.
  intros H. rewrite Tz_unfold.
  replace (invalid_state j k (Z.of_nat n) m) with true; [reflexivity|].
  symmetry. apply invalid_state_true. unfold valid_state. lia.
Qed.

Lemma Tz_nonneg n : forall j k m, 0 <= Tz n j k m.
Proof.
  induction n as [|n IH]; intros j k m; rewrite Tz_unfold;
    destruct (invalid_state j k _ m) eqn:Hi; try lia.
  apply invalid_state_false in Hi. unfold valid_state in Hi.
  pose proof (IH j k m). pose proof (IH (j - 1) (k + 1) m).
  pose proof (IH j (k - 1) m).
  repeat apply Z.add_nonneg_nonneg; apply Z.mul_nonneg_nonneg; lia.
Qed.

Lemma T_closed_invalid n j k m :
  0 <= m -> invalid_state (Z.of_nat j) (Z.of_nat k) (Z.of_nat n) m = true ->
  T_closed n j k m = 0.
Proof.
  intros Hm Hi. apply invalid_state_true in Hi. unfold valid_state in Hi.
  unfold T_closed.
  destruct (Z_lt_ge_dec m (Z.of_nat (j + k))) as [H1|H1].
  { rewrite ff_zero by lia. lia. }
  destruct (le_lt_dec k n) as [H2|H2].
  2:{ rewrite choose_gt by lia. lia. }
  rewrite Sz_small by lia. lia.
Qed.

Lemma Tz_closed n : forall j k m,
  0 <= m -> Tz n (Z.of_nat j) (Z.of_nat k) m = T_closed n j k m.
Proof.
  induction n as [|n IH]; intros j k m Hm; rewrite Tz_unfold;
    destruct (invalid_state _ _ _ m) eqn:Hi;
    try (symmetry; apply T_closed_invalid; assumption).
  - apply invalid_state_false in Hi. unfold valid_state in Hi.
    assert (j = O) as -> by lia. assert (k = O) as -> by lia. reflexivity.
  - apply invalid_state_false in Hi. unfold valid_state in Hi.
    rewrite IH by assumption.
    assert (Tz n (Z.of_nat j - 1) (Z.of_nat k + 1) m
            = ff m (j + k) * Z.of_nat (Mp.choose n (S k))
              * Sz (n - S k) (Z.of_nat j - 1)) as ->.
    { destruct j as [|j].
      - rewrite Tz_neg, Sz_neg by lia. lia.
      - replace (Z.of_nat (S j) - 1) with (Z.of_nat j) by lia.
        replace (Z.of_nat k + 1) with (Z.of_nat (S k)) by lia.
        rewrite IH by assumption. unfold T_closed.
        replace (j + S k)%nat with (S j + k)%nat by lia. reflexivity. }
    unfold T_closed.
    pose proof (choose_absorb n k) as Ha.
    destruct k as [|k].
    + rewrite Tz_neg by lia.
      rewrite !Nat.sub_0_r. simpl Mp.choose.
      rewrite Sz_step. rewrite choose_1 in *.
      rewrite choose_0, Nat.add_0_r, Nat.sub_1_r.
      change (Z.of_nat 0) with 0. change (Z.of_nat 1) with 1. ring.
    + replace (Z.of_nat (S k) - 1) with (Z.of_nat k) by lia.
      rewrite IH by assumption. unfold T_closed.
      change (Mp.choose (S n) (S k)) with (Mp.choose n k + Mp.choose n (S k))%nat.
      replace (j + S k)%nat with (S (j + k)) by lia.
      rewrite ff_S_r. simpl Nat.sub.
      destruct (le_lt_dec (S k) n) as [Hk|Hk].
      * replace (n - k)%nat with (S (n - S k)) by lia.
        rewrite Sz_step.
        rewrite <- Nat.sub_succ_r.
        rewrite !Nat2Z.inj_add.
        replace (Z.of_nat (n - S k)) with (Z.of_nat n - Z.of_nat (S k)) by lia.
        replace (Z.of_nat (S (S k))) with (Z.of_nat k + 2) in Ha by lia.
        replace (Z.of_nat (S k)) with (Z.of_nat k + 1) in * by lia.
        set (a := ff m (j + k)). set (s1 := Sz (n - S k) (Z.of_nat j)).
        set (s2 := Sz (n - S (S k)) (Z.of_nat j - 1)).
        set (c2 := Z.of_nat (Mp.choose n (S (S k)))) in *.
        set (c1 := Z.of_nat (Mp.choose n (S k))) in *.
        set (c0 := Z.of_nat (Mp.choose n k)).
        set (d := m - (Z.of_nat j + Z.of_nat k)).
        replace ((Z.of_nat k + 1 + 1) * (a * d * c2 * s2))
          with (a * d * s2 * ((Z.of_nat k + 2) * c2)) by ring.
        rewrite Ha. unfold d. ring.
      * rewrite (choose_gt n (S k)), (choose_gt n (S (S k))) by lia.
        rewrite !Nat2Z.inj_add. change (Z.of_nat 0) with 0.
        replace (n - k)%nat with O by lia.
        replace (n - S k)%nat with O by lia.
        replace (Z.of_nat (S k)) with (Z.of_nat k + 1) by lia. ring.
Qed.

Lemma T_val_j0 j n m :
  0 <= m -> 0 <= n -> 0 <= j ->
  T_val j 0 n m = ff m (Z.to_nat j) * S_val n j.
Proof.
  intros Hm Hn Hj. unfold T_val, S_val.
  replace (n <? 0) with false by (symmetry; apply Z.ltb_ge; lia).
  pose proof (Tz_closed (Z.to_nat n) (Z.to_nat j) O m Hm) as H.
  rewrite Z2Nat.id in H by lia. change (Z.of_nat 0) with 0 in H.
  rewrite H. unfold T_closed.
  rewrite Nat.add_0_r, Nat.sub_0_r, Z2Nat.id by lia.
  destruct (Z.to_nat n); simpl; lia.
Qed.

(** ** Every assignment is counted once: the occupancy counts add up to [m^n] *)

Lemma Tz_invalid n j k m :
  invalid_state j k (Z.of_nat n) m = true -> Tz n j k m = 0.
Proof. intros H. rewrite Tz_unfold, H. reflexivity. Qed.

Lemma Tz_out n j k m :
  j < 0 \/ k < 0 \/ Z.of_nat n < 2 * j + k \/ m < j + k -> Tz n j k m = 0.
Proof.
  intros H. apply Tz_invalid. apply invalid_state_true.
  unfold valid_state. lia.
Qed.

(** The recurrence of [Tz] without its guard, on non-negative [j] and [k]. *)
Lemma Tz_step n j k m :
  0 <= j -> 0 <= k ->
  Tz (S n) j k m =
  j * Tz n j k m + (k + 1) * Tz n (j - 1) (k + 1) m
  + (m - j - k + 1) * Tz n j (k - 1) m.
Proof.
  intros Hj Hk. rewrite (Tz_unfold (S n)).
  destruct (invalid_state j k (Z.of_nat (S n)) m) eqn:Hi; [|reflexivity].
  apply invalid_state_true in Hi. unfold valid_state in Hi.
  rewrite (Tz_out n j k), (Tz_out n (j - 1) (k + 1)) by lia.
  destruct (Z.eq_dec (m - j - k + 1) 0) as [->|Hc]; [lia|].
  rewrite (Tz_out n j (k - 1)) by lia. lia.
Qed.

(** Moving the index of a sum by one when both ends vanish. *)
Lemma sumZ_reindex N (f g : nat -> Z) :
  f O = 0 -> (forall i, f (S i) = g i) -> g N = 0 ->
  sumZ (S N) f = sumZ (S N) g.
Proof.
  intros H0 Hs HN. rewrite sumZ_shift, H0.
  rewrite (sumZ_ext N _ g) by (intros; apply Hs).
  simpl. lia.
Qed.

Lemma sumZ_ext2 N (f g : nat -> nat -> Z) :
  (forall i j, f i j = g i j) ->
  sumZ N (fun i => sumZ N (fun j => f i j))
  = sumZ N (fun i => sumZ N (fun j => g i j)).
Proof.
  intros E. apply sumZ_ext. intros i _. apply sumZ_ext. intros j _. apply E.
Qed.

Lemma T_total_step N n m :
  (S n < N)%nat -> T_total N (S n) m = m * T_total N n m.
Proof.
  intros HN. destruct N as [|N']; [lia|].
  set (N := S N').
  set (t := fun j k : nat => Tz n (Z.of_nat j) (Z.of_nat k) m).
  assert (Ht : forall j k, (n < j)%nat \/ (n < k)%nat -> t j k = 0).
  { intros j k H. apply Tz_out. lia. }
  assert (A3 : forall j,
    sumZ N (fun k => (m - Z.of_nat j - Z.of_nat k + 1)
                     * Tz n (Z.of_nat j) (Z.of_nat k - 1) m)
    = sumZ N (fun k => (m - Z.of_nat j - Z.of_nat k) * t j k)).
  { intros j. apply sumZ_reindex.
    - rewrite Tz_out by lia. lia.
    - intros k. unfold t.
      replace (Z.of_nat (S k) - 1) with (Z.of_nat k) by lia.
      f_equal. lia.
    - rewrite Ht by lia. lia. }
  assert (A2 :
    sumZ N (fun j => sumZ N (fun k =>
      (Z.of_nat k + 1) * Tz n (Z.of_nat j - 1) (Z.of_nat k + 1) m))
    = sumZ N (fun j => sumZ N (fun k => Z.of_nat k * t j k))).
  { rewrite sumZ_swap.
    rewrite (sumZ_ext N _ (fun k =>
      sumZ N (fun j => Z.of_nat (S k) * t j (S k)))).
    2:{ intros k _. apply sumZ_reindex.
        - rewrite Tz_out by lia. lia.
        - intros j. unfold t.
          replace (Z.of_nat (S j) - 1) with (Z.of_nat j) by lia.
          replace (Z.of_nat k + 1) with (Z.of_nat (S k)) by lia. reflexivity.
        - rewrite Ht by lia. lia. }
    rewrite (sumZ_swap N N (fun j k => Z.of_nat k * t j k)).
    symmetry.
    apply (sumZ_reindex N' (fun k => sumZ N (fun j => Z.of_nat k * t j k))).
    - apply sumZ_zero. intros. simpl. lia.
    - reflexivity.
    - apply sumZ_zero. intros j _. rewrite Ht by lia. lia. }
  unfold T_total. fold N.
  rewrite (sumZ_ext2 N _ (fun j k =>
    Z.of_nat j * t j k
    + (Z.of_nat k + 1) * Tz n (Z.of_nat j - 1) (Z.of_nat k + 1) m
    + (m - Z.of_nat j - Z.of_nat k + 1)
      * Tz n (Z.of_nat j) (Z.of_nat k - 1) m))
    by (intros; apply Tz_step; lia).
  rewrite (sumZ_ext N _ (fun j =>
    sumZ N (fun k => Z.of_nat j * t j k)
    + sumZ N (fun k => (Z.of_nat k + 1)
                       * Tz n (Z.of_nat j - 1) (Z.of_nat k + 1) m)
    + sumZ N (fun k => (m - Z.of_nat j - Z.of_nat k) * t j k)))
    by (intros j _; rewrite <- A3, <- !sumZ_add; reflexivity).
  rewrite !sumZ_add, A2, <- !sumZ_add, <- sumZ_scal.
  apply sumZ_ext. intros j _.
  rewrite <- !sumZ_add, <- sumZ_scal.
  apply sumZ_ext. intros k _. fold (t j k). ring.
Qed.

Lemma T_total_0 N m : (0 < N)%nat -> 0 <= m -> T_total N 0 m = 1.
Proof.
  intros HN Hm. destruct N as [|N]; [lia|]. unfold T_total.
  rewrite sumZ_shift, (sumZ_shift N (fun k => Tz 0 (Z.of_nat 0) _ m)).
  rewrite !sumZ_zero.
  - change (Z.of_nat 0) with 0. rewrite Tz_unfold. change (Z.of_nat 0) with 0.
    replace (invalid_state 0 0 0 m) with false; [lia|].
    symmetry. apply invalid_state_false. unfold valid_state. lia.
  - intros j _. apply sumZ_zero. intros k _. apply Tz_out. lia.
  - intros k _. apply Tz_out. lia.
Qed.

Lemma T_total_pow n : forall N m,
  (n < N)%nat -> 0 <= m -> T_total N n m = m ^ Z.of_nat n.
Proof.
  induction n as [|n IH]; intros N m HN Hm.
  - apply T_total_0; assumption.
  - rewrite T_total_step, IH by (assumption || lia).
    rewrite Nat2Z.inj_succ, Z.pow_succ_r by lia. reflexivity.
Qed.

Lemma Tz_le_pow n j k m : 0 <= m -> Tz n j k m <= m ^ Z.of_nat n.
Proof.
  intros Hm.
  destruct (Z_lt_ge_dec j 0) as [Hj|Hj].
  { rewrite Tz_out by lia. apply Z.pow_nonneg. assumption. }
  destruct (Z_lt_ge_dec k 0) as [Hk|Hk].
  { rewrite Tz_out by lia. apply Z.pow_nonneg. assumption. }
  destruct (Z_lt_ge_dec (Z.of_nat n) (2 * j + k)) as [Hn|Hn].
  { rewrite Tz_out by lia. apply Z.pow_nonneg. assumption. }
  rewrite <- (T_total_pow n (S n) m) by lia. unfold T_total.
  etransitivity;
    [|apply (sumZ_term_le (S n) _ (Z.to_nat j));
      [intros; apply sumZ_nonneg; intros; apply Tz_nonneg|lia]].
  cbv beta.
  etransitivity;
    [|apply (sumZ_term_le (S n) _ (Z.to_nat k));
      [intros; apply Tz_nonneg|lia]].
  cbv beta. rewrite !Z2Nat.id by lia. reflexivity.
Qed.

Lemma sumZ_le_more N M f :
  (N <= M)%nat -> (forall i, 0 <= f i) -> sumZ N f <= sumZ M f.
Proof.
  intros Hle Hf. induction M as [|M IH].
  - replace N with O by lia. lia.
  - destruct (Nat.eq_dec N (S M)) as [->|Hne]; [lia|].
    simpl. pose proof (Hf M). assert (sumZ N f <= sumZ M f) by (apply IH; lia).
    lia.
Qed.

(** The states with no singleton day, summed over [j], stay below [m^n]. *)
Lemma sum_Tz_j0_le_pow n N m :
  0 <= m ->
  sumZ N (fun j => Tz n (Z.of_nat j) 0 m) <= m ^ Z.of_nat n.
Proof.
  intros Hm.
  set (M := S (Nat.max n N)).
  rewrite <- (T_total_pow n M m) by (unfold M; lia). unfold T_total.
  etransitivity.
  - apply (sumZ_le_more N M); [unfold M; lia|]. intros. apply Tz_nonneg.
  - apply sumZ_le. intros j _.
    apply (sumZ_term_le M (fun k => Tz n (Z.of_nat j) (Z.of_nat k) m) O).
    + intros. apply Tz_nonneg.
    + unfold M. lia.
Qed.

(** ** Inclusion-exclusion and the Stirling sum count the same assignments

    Both satisfy [f (n+2) m = m f (n+1) m + m (n+1) f n (m-1) - m f (n+1) (m-1)]
    with [f 0 m = 1] and [f 1 m = 0]. *)

Lemma a_term_out m n i : (n < i)%nat -> a_term m n i = 0.
Proof. intros H. unfold a_term. rewrite Sz_small by lia. lia. Qed.

Lemma d_term_out m n j : (n < j)%nat -> d_term m n j = 0.
Proof. intros H. unfold d_term. rewrite choose_gt by lia. lia. Qed.

Lemma strong_count_sum m n N :
  (n < N)%nat -> strong_count m n = sumZ N (a_term m n).
Proof.
  intros H. symmetry. apply sumZ_cut; [lia|].
  intros i Hi. apply a_term_out. lia.
Qed.

Lemma incl_excl_sum m n N :
  (n < N)%nat -> incl_excl m n = sumZ N (d_term m n).
Proof.
  intros H. symmetry. apply sumZ_cut; [lia|].
  intros i Hi. apply d_term_out. lia.
Qed.

Lemma strong_count_rec m n :
  strong_count m (S (S n))
  = m * strong_count m (S n)
    + m * Z.of_nat (S n) * strong_count (m - 1) n
    - m * strong_count (m - 1) (S n).
Proof.
  set (N := S (S (S n))).
  rewrite (strong_count_sum m (S (S n)) (S N)),
          (strong_count_sum m (S n) (S N)),
          (strong_count_sum (m - 1) (S n) (S N)),
          (strong_count_sum (m - 1) n N) by (unfold N; lia).
  rewrite <- !sumZ_scal.
  rewrite (sumZ_ext (S N) (a_term m (S (S n))) (fun i =>
    (m * a_term m (S n) i - m * a_term (m - 1) (S n) i)
    + Z.of_nat (S n) * ff m i * Sz n (Z.of_nat i - 1))).
  2:{ intros i _. unfold a_term. rewrite (Sz_step (S n)). simpl pred.
      pose proof (ff_S_r i m) as H. simpl ff in H.
      replace (m * (ff (m - 1) i * Sz (S n) (Z.of_nat i)))
        with (m * ff (m - 1) i * Sz (S n) (Z.of_nat i)) by ring.
      rewrite H. ring. }
  rewrite sumZ_add, sumZ_sub.
  rewrite (sumZ_shift N (fun i => _ * ff m i * _)).
  rewrite (Sz_neg n) by lia.
  rewrite (sumZ_ext N (fun i => _ * ff m (S i) * _)
                      (fun i => m * Z.of_nat (S n) * a_term (m - 1) n i)).
  2:{ intros i _. unfold a_term.
      replace (Z.of_nat (S i) - 1) with (Z.of_nat i) by lia.
      simpl ff. ring. }
  lia.
Qed.

Lemma choose_absorb_S n j :
  Z.of_nat (S j) * Z.of_nat (Mp.choose (S n) (S j))
  = Z.of_nat (S n) * Z.of_nat (Mp.choose n j).
Proof.
  pose proof (choose_absorb n j) as H.
  rewrite choose_SS, Nat2Z.inj_add. lia.
Qed.

Lemma pow_m1_S j : (-1) ^ Z.of_nat (S j) = - (-1) ^ Z.of_nat j.
Proof. rewrite Nat2Z.inj_succ, Z.pow_succ_r by lia. lia. Qed.

Lemma incl_excl_rec m n :
  incl_excl m (S (S n))
  = m * incl_excl m (S n)
    + m * Z.of_nat (S n) * incl_excl (m - 1) n
    - m * incl_excl (m - 1) (S n).
Proof.
  set (n1 := S n). set (N := S (S n)).
  set (X := fun j : nat =>
    (-1) ^ Z.of_nat j * Z.of_nat (Mp.choose n1 j) * ff m j
    * (m - Z.of_nat j) ^ Z.of_nat (S n1 - j)).
  set (Y := fun j : nat =>
    Z.of_nat j * (-1) ^ Z.of_nat j * Z.of_nat (Mp.choose n1 j) * ff m j
    * (m - Z.of_nat j) ^ Z.of_nat (n1 - j)).
  assert (L0 : d_term m (S n1) O = X O).
  { unfold d_term, X. rewrite !choose_0. reflexivity. }
  assert (L1 : forall j,
    d_term m (S n1) (S j) = X (S j) - m * d_term (m - 1) n1 j).
  { intros j. unfold d_term, X.
    rewrite choose_SS, Nat2Z.inj_add, pow_m1_S.
    change (S n1 - S j)%nat with (n1 - j)%nat.
    change (ff m (S j)) with (m * ff (m - 1) j).
    replace (m - 1 - Z.of_nat j) with (m - Z.of_nat (S j)) by lia. ring. }
  assert (L2 : forall j, m * d_term m n1 j = X j + Y j).
  { intros j. unfold d_term, X, Y.
    destruct (le_lt_dec j n1) as [Hj|Hj].
    - replace (S n1 - j)%nat with (S (n1 - j)) by lia.
      rewrite (Nat2Z.inj_succ (n1 - j)), Z.pow_succ_r by lia. ring.
    - rewrite choose_gt by lia. change (Z.of_nat 0) with 0. ring. }
  assert (L3 : forall j,
    m * Z.of_nat n1 * d_term (m - 1) n j = - Y (S j)).
  { intros j. unfold d_term, Y, n1.
    change (S n - S j)%nat with (n - j)%nat.
    change (ff m (S j)) with (m * ff (m - 1) j).
    rewrite pow_m1_S.
    replace (m - 1 - Z.of_nat j) with (m - Z.of_nat (S j)) by lia.
    pose proof (choose_absorb_S n j) as Ha.
    set (p := (m - Z.of_nat (S j)) ^ Z.of_nat (n - j)).
    set (s := (-1) ^ Z.of_nat j).
    transitivity (s * (Z.of_nat (S j) * Z.of_nat (Mp.choose (S n) (S j)))
                  * (m * ff (m - 1) j) * p); [|ring].
    rewrite Ha. ring. }
  assert (Y0 : Y O = 0) by (unfold Y; simpl; lia).
  rewrite (incl_excl_sum m (S n1) (S N)), (incl_excl_sum m n1 (S N)),
          (incl_excl_sum (m - 1) n1 N), (incl_excl_sum (m - 1) n N)
    by (unfold N, n1; lia).
  rewrite <- !sumZ_scal.
  rewrite (sumZ_ext (S N) (fun i => m * d_term m n1 i) (fun j => X j + Y j))
    by (intros; apply L2).
  rewrite (sumZ_ext N (fun i => m * Z.of_nat n1 * d_term (m - 1) n i)
                      (fun j => - Y (S j))) by (intros; apply L3).
  rewrite sumZ_add, !sumZ_shift, L0, Y0.
  rewrite (sumZ_ext N (fun i => d_term m (S n1) (S i))
                      (fun j => X (S j) - m * d_term (m - 1) n1 j))
    by (intros; apply L1).
  rewrite sumZ_sub.
  assert (sumZ N (fun j => - Y (S j)) = - sumZ N (fun j => Y (S j))) as ->.
  { rewrite <- (sumZ_scal N (-1)). apply sumZ_ext. intros. lia. }
  lia.
Qed.

Lemma incl_excl_0 m : incl_excl m 0 = 1.
Proof. reflexivity. Qed.

Lemma strong_count_0 m : strong_count m 0 = 1.
Proof. unfold strong_count. simpl. lia. Qed.

Lemma incl_excl_1 m : incl_excl m 1 = 0.
Proof.
  unfold incl_excl. simpl sumZ. simpl Mp.choose. simpl Nat.sub. simpl ff.
  change (Z.of_nat 0) with 0. change (Z.of_nat 1) with 1.
  rewrite Z.pow_0_r, Z.pow_1_r. lia.
Qed.

Lemma strong_count_1 m : strong_count m 1 = 0.
Proof. unfold strong_count. simpl. lia. Qed.

(** The numerator of the direct formula is the Stirling sum. *)
Lemma incl_excl_strong_count n : forall m,
  incl_excl m n = strong_count m n
  /\ incl_excl m (S n) = strong_count m (S n).
Proof.
  induction n as [|n IH]; intros m.
  - rewrite incl_excl_0, strong_count_0, incl_excl_1, strong_count_1. auto.
  - split; [apply IH|].
    rewrite incl_excl_rec, strong_count_rec.
    destruct (IH m) as [_ ->]. destruct (IH (m - 1)) as [-> ->]. reflexivity.
Qed.

(** ** The assemblers: what each probability function returns *)

Lemma Qeq_bool_pow_nonzero m n : m <> 0 -> Qeq_bool (inject_Z m ^ n) 0 = false.
Proof.
  intros Hm. apply not_true_is_false. intros H. apply Qeq_bool_eq in H.
  revert H. apply Qpower_not_0. apply inject_Z_nonzero. assumption.
Qed.

Lemma Mp_div_pow x m n :
  m <> 0 -> Mp.div x (inject_Z m ^ n) = Val (x / inject_Z m ^ n)%Q.
Proof. intros Hm. unfold Mp.div. rewrite Qeq_bool_pow_nonzero by assumption. reflexivity. Qed.

(** Normalisation by [m^n], the last two lines of every assembler. *)
Lemma normalise_eval (N m n : Z) :
  m <> 0 ->
  (denominator <-- Mp.power (inject_Z m) n ;;
   Mp.div (inject_Z N) denominator)
  = Val (inject_Z N / inject_Z m ^ n)%Q.
Proof.
  intros Hm. rewrite Mp_power_nonzero by assumption. simpl.
  apply Mp_div_pow. assumption.
Qed.

Lemma prob_eval m n k :
  m <> 0 ->
  prob m n k =
  Val (inject_Z (direct_sum m n k) / inject_Z m ^ n)%Q.
Proof. intros Hm. unfold prob. apply normalise_eval. assumption. Qed.

Lemma prob_r1_loop m n l : forall N memo,
  T_memo_ok memo ->
  exists memo',
    for_each (fun '(N, memo) j =>
                '(term, memo') <-- T j 0 n m (Some memo) ;;
                Val (N + term, memo')) l (N, memo)
    = Val (fold_left (fun acc j => acc + T_val j 0 n m) l N, memo')
    /\ T_memo_ok memo'.
Proof.
  induction l as [|j l IH]; intros N memo Hok; simpl.
  - eauto.
  - destruct (T_correct j 0 n m memo Hok) as (memo1 & E & Hok1).
    rewrite E. simpl. apply IH. assumption.
Qed.

Lemma prob_r1_eval m n :
  m <> 0 ->
  prob_r1 m n =
  Val (inject_Z (T_sum m n) / inject_Z m ^ n)%Q.
Proof.
  intros Hm. unfold prob_r1.
  destruct (prob_r1_loop m n (range 1 (n / 2 + 1)) 0 ∅ T_memo_ok_empty)
    as (memo' & E & _).
  rewrite E. simpl. apply normalise_eval. assumption.
Qed.

Lemma prob_r3_loop m n l : forall total memo,
  0 <= n -> Forall (fun k => 0 <= k) l -> S_memo_ok memo ->
  exists memo',
    for_each (fun '(total, memo) k =>
                '(stirling_val, memo') <-- assoc_stirling n k (Some memo) ;;
                if stirling_val =? 0 then Val (total, memo')
                else
                  let term := Mp.binomial m k * Mp.factorial k * stirling_val in
                  Val (total + term, memo')) l (total, memo)
    = Val (fold_left (fun acc k =>
                        acc + Mp.binomial m k * Mp.factorial k * S_val n k)
                     l total, memo')
    /\ S_memo_ok memo'.
Proof.
  induction l as [|k l IH]; intros total memo Hn Hl Hok.
  - simpl. eauto.
  - inversion Hl as [|? ? Hk Hl']; subst.
    destruct (assoc_stirling_correct n k memo Hok Hn Hk) as (memo1 & E & Hok1).
    cbn [for_each fold_left]. cbv beta iota. rewrite E. cbn [bind].
    destruct (S_val n k =? 0) eqn:Hz.
    + apply Z.eqb_eq in Hz. cbn [bind].
      replace (total + Mp.binomial m k * Mp.factorial k * S_val n k)
        with total by (rewrite Hz; lia).
      apply IH; assumption.
    + cbn [bind]. apply IH; assumption.
Qed.

Lemma Forall_range_nonneg a b : 0 <= a -> Forall (fun k => 0 <= k) (range a b).
Proof.
  intros Ha. apply Forall_forall. intros x Hx.
  apply elem_of_range in Hx. lia.
Qed.

Lemma prob_r3_memo_eval m n :
  m <> 0 -> 0 <= n ->
  prob_r3_memo m n =
  Val (inject_Z (S_sum m n) / inject_Z m ^ n)%Q.
Proof.
  intros Hm Hn. unfold prob_r3_memo.
  destruct (prob_r3_loop m n (range 1 (n / 2 + 1)) 0 ∅ Hn
              (Forall_range_nonneg 1 _ ltac:(lia)) S_memo_ok_empty)
    as (memo' & E & _).
  cbv zeta in E. rewrite E. simpl. apply normalise_eval. assumption.
Qed.

Lemma prob_r2_loop m n l : forall acc z memo,
  m <> 0 -> P_memo_ok memo ->
  (acc == inject_Z z / inject_Z m ^ n)%Q ->
  exists r memo',
    for_each (fun '(result, memo) j =>
                '(term, memo') <-- P j 0 n m (Some memo) ;;
                Val ((result + term)%Q, memo')) l (acc, memo)
    = Val (r, memo')
    /\ (r == inject_Z (fold_left (fun a j => (a + T_val j 0 n m)%Z) l z)
             / inject_Z m ^ n)%Q
    /\ P_memo_ok memo'.
Proof.
  induction l as [|j l IH]; intros acc z memo Hm Hok Hacc; simpl.
  - eauto.
  - destruct (P_correct j 0 n m memo Hm Hok) as (v & memo1 & E & Hv & Hok1).
    rewrite E. simpl. apply IH; [assumption..|].
    rewrite Hacc, Hv. unfold P_val, Qdiv. rewrite inject_Z_plus. ring.
Qed.

Lemma prob_r2_float_eval m n :
  m <> 0 ->
  exists q,
    prob_r2_float m n = Val q
    /\ (q == inject_Z (T_sum m n) / inject_Z m ^ n)%Q.
Proof.
  intros Hm. unfold prob_r2_float.
  destruct (prob_r2_loop m n (range 1 (n / 2 + 1)) 0%Q 0 ∅ Hm P_memo_ok_empty)
    as (r & memo' & E & Hr & _).
  { unfold Qdiv. change (inject_Z 0) with 0%Q. ring. }
  rewrite E. simpl. eauto.
Qed.

(** ** The three numerators *)

Lemma S_val_of_nat n k : S_val (Z.of_nat n) k = Sz n k.
Proof.
  unfold S_val.
  replace (Z.of_nat n <? 0) with false by (symmetry; apply Z.ltb_ge; lia).
  rewrite Nat2Z.id. reflexivity.
Qed.

Lemma T_val_of_nat j k n m : T_val j k (Z.of_nat n) m = Tz n j k m.
Proof.
  unfold T_val.
  replace (Z.of_nat n <? 0) with false by (symmetry; apply Z.ltb_ge; lia).
  rewrite Nat2Z.id. reflexivity.
Qed.

(** The sum over [j = 1 .. n/2] of the Stirling terms is the whole Stirling
    sum as soon as there is one person. *)
Lemma stirling_fold_strong_count m (n : nat) :
  (1 <= n)%nat ->
  fold_left (fun acc j => acc + ff m (Z.to_nat j) * Sz n j)
            (range 1 (Z.of_nat n / 2 + 1)) 0
  = strong_count m n.
Proof.
  intros Hn.
  assert (0 <= Z.of_nat n / 2) as Hh by (apply Z.div_pos; lia).
  assert (2 * (Z.of_nat n / 2) <= Z.of_nat n) as Hh2
    by (apply Z.mul_div_le; lia).
  assert (Z.of_nat n < 2 * (Z.of_nat n / 2) + 2) as Hh3.
  { pose proof (Z.mod_pos_bound (Z.of_nat n) 2 ltac:(lia)).
    pose proof (Z.div_mod (Z.of_nat n) 2 ltac:(lia)). lia. }
  set (h := Z.to_nat (Z.of_nat n / 2)).
  replace (Z.of_nat n / 2 + 1) with (1 + Z.of_nat h) by (unfold h; lia).
  rewrite (fold_range_sumZ (fun j => ff m (Z.to_nat j) * Sz n j)).
  unfold strong_count. rewrite sumZ_shift.
  destruct n as [|n']; [lia|].
  rewrite Sz_S_nonpos by (simpl; lia).
  rewrite (sumZ_cut h (S n')).
  - rewrite Z.mul_0_r, Z.add_0_l. apply sumZ_ext. intros i _.
    replace (1 + Z.of_nat i) with (Z.of_nat (S i)) by lia.
    rewrite Nat2Z.id. reflexivity.
  - unfold h. lia.
  - intros i Hi. rewrite Sz_small; [lia|]. unfold h in Hi. lia.
Qed.

Lemma T_sum_strong_count m n :
  0 <= m -> 1 <= n ->
  T_sum m n = strong_count m (Z.to_nat n).
Proof.
  intros Hm Hn. unfold T_sum.
  rewrite <- (stirling_fold_strong_count m (Z.to_nat n)) by lia.
  rewrite Z2Nat.id by lia.
  assert (forall l, Forall (fun j => 0 <= j) l -> forall a,
    fold_left (fun acc j => acc + T_val j 0 n m) l a
    = fold_left (fun acc j => acc + ff m (Z.to_nat j) * Sz (Z.to_nat n) j) l a)
    as H.
  { induction l as [|j l IH]; intros Hl a; [reflexivity|].
    inversion Hl; subst. simpl.
    rewrite T_val_j0 by lia.
    replace (S_val n j) with (Sz (Z.to_nat n) j)
      by (rewrite <- S_val_of_nat, Z2Nat.id by lia; reflexivity).
    apply IH. assumption. }
  apply H. apply Forall_range_nonneg. lia.
Qed.

Lemma S_sum_strong_count m n :
  0 <= m -> 1 <= n ->
  S_sum m n = strong_count m (Z.to_nat n).
Proof.
  intros Hm Hn. unfold S_sum.
  rewrite <- (stirling_fold_strong_count m (Z.to_nat n)) by lia.
  rewrite Z2Nat.id by lia.
  assert (forall l, Forall (fun j => 0 <= j) l -> forall a,
    fold_left (fun acc k =>
                 acc + Mp.binomial m k * Mp.factorial k * S_val n k) l a
    = fold_left (fun acc j => acc + ff m (Z.to_nat j) * Sz (Z.to_nat n) j) l a)
    as H.
  { induction l as [|j l IH]; intros Hl a; [reflexivity|].
    inversion Hl; subst. simpl.
    rewrite binomial_factorial_ff by lia.
    replace (S_val n j) with (Sz (Z.to_nat n) j)
      by (rewrite <- S_val_of_nat, Z2Nat.id by lia; reflexivity).
    apply IH. assumption. }
  apply H. apply Forall_range_nonneg. lia.
Qed.

Lemma prob_term_d_term m n (i : nat) :
  0 <= m -> (i <= n)%nat ->
  prob_term m (Z.of_nat n) 0 (Z.of_nat i) = d_term m n i.
Proof.
  intros Hm Hi. unfold prob_term, d_term.
  rewrite Z.sub_0_r.
  replace (Mp.binomial (Z.of_nat i) 0) with 1
    by (unfold Mp.binomial; simpl; rewrite choose_0; reflexivity).
  assert (Mp.binomial m (Z.of_nat i) * Mp.factorial (Z.of_nat i) = ff m i) as Hb
    by (rewrite binomial_factorial_ff, Nat2Z.id by lia; reflexivity).
  replace (Mp.binomial (Z.of_nat n) (Z.of_nat i))
    with (Z.of_nat (Mp.choose n i))
    by (unfold Mp.binomial; rewrite !Nat2Z.id; reflexivity).
  assert ((if 0 <? Z.of_nat n - Z.of_nat i
           then (m - Z.of_nat i) ^ (Z.of_nat n - Z.of_nat i) else 1)
          = (m - Z.of_nat i) ^ Z.of_nat (n - i)) as ->.
  { rewrite Nat2Z.inj_sub by assumption.
    destruct (0 <? Z.of_nat n - Z.of_nat i) eqn:E; [reflexivity|].
    apply Z.ltb_ge in E.
    replace (Z.of_nat n - Z.of_nat i) with 0 by lia. reflexivity. }
  rewrite <- Hb. ring.
Qed.

Lemma direct_sum_incl_excl m n :
  0 <= m -> 0 <= n ->
  direct_sum m n 0 = incl_excl m (Z.to_nat n).
Proof.
  intros Hm Hn. unfold direct_sum.
  replace (n + 1) with (0 + Z.of_nat (S (Z.to_nat n))) by lia.
  rewrite (fold_range_sumZ (prob_term m n 0)).
  change (incl_excl m (Z.to_nat n))
    with (sumZ (S (Z.to_nat n)) (d_term m (Z.to_nat n))).
  apply sumZ_ext. intros i Hi.
  rewrite Z.add_0_l. rewrite <- prob_term_d_term by lia.
  rewrite Z2Nat.id by lia. reflexivity.
Qed.

Lemma strong_count_Tz m n :
  0 <= m -> strong_count m n = sumZ (S n) (fun j => Tz n (Z.of_nat j) 0 m).
Proof.
  intros Hm. unfold strong_count. apply sumZ_ext. intros i _.
  pose proof (Tz_closed n i O m Hm) as H. change (Z.of_nat 0) with 0 in H.
  rewrite H. unfold T_closed.
  rewrite Nat.add_0_r, Nat.sub_0_r, choose_0. change (Z.of_nat 1) with 1. ring.
Qed.

Lemma strong_count_bounds m n :
  0 <= m -> 0 <= strong_count m n <= m ^ Z.of_nat n.
Proof.
  intros Hm. rewrite strong_count_Tz by assumption. split.
  - apply sumZ_nonneg. intros. apply Tz_nonneg.
  - apply sum_Tz_j0_le_pow. assumption.
Qed.

Lemma Qdiv_pow_bounds N m n :
  1 <= m -> 0 <= n -> 0 <= N <= m ^ n ->
  (0 <= inject_Z N / inject_Z m ^ n <= 1)%Q.
Proof.
  intros Hm Hn HN.
  assert (inject_Z m ^ n == inject_Z (m ^ n))%Q as Hp
    by (symmetry; apply Zpower_Qpower; assumption).
  assert (0 < m ^ n) as Hpos by (apply Z.pow_pos_nonneg; lia).
  assert (0 < inject_Z (m ^ n))%Q as HposQ
    by (rewrite <- (Zlt_Qlt 0); assumption).
  rewrite Hp. split.
  - apply Qle_shift_div_l; [assumption|].
    rewrite Qmult_0_l. rewrite <- (Zle_Qle 0). lia.
  - apply Qle_shift_div_r; [assumption|].
    rewrite Qmult_1_l. rewrite <- Zle_Qle. lia.
Qed.

(** ** Loops that fill a dictionary *)

Lemma put_lookup {K V : Type} `{Countable K} (h : K -> option V) curr x y :
  put h curr x !! y
  = if decide (y = x) then
      match h y with Some v => Some v | None => curr !! y end
    else curr !! y.
Proof.
  unfold put. destruct (decide (y = x)) as [->|Hne].
  - destruct (h x); [apply lookup_insert_eq|reflexivity].
  - destruct (h x); [apply lookup_insert_ne; congruence|reflexivity].
Qed.

Lemma fold_put_lookup {K V : Type} `{Countable K} (h : K -> option V) l :
  forall curr y,
    fold_left (put h) l curr !! y
    = if decide (y ∈ l) then
        match h y with Some v => Some v | None => curr !! y end
      else curr !! y.
Proof.
  induction l as [|x l IH]; intros curr y.
  - simpl. destruct (decide (y ∈ [])) as [Hin|_]; [|reflexivity].
    apply elem_of_nil in Hin. contradiction.
  - simpl. rewrite IH, put_lookup.
    destruct (decide (y ∈ l)) as [Hl|Hl];
      destruct (decide (y = x)) as [->|Hx];
      destruct (decide (_ ∈ x :: l)) as [Hc|Hc];
      try reflexivity;
      try (exfalso; apply Hc; rewrite elem_of_cons; auto; fail).
    + destruct (h x); reflexivity.
    + exfalso. apply elem_of_cons in Hc. destruct Hc; contradiction.
Qed.

Lemma fold_left_map {A B C : Type} (f : A -> B -> A) (g : C -> B) l :
  forall a, fold_left f (map g l) a = fold_left (fun a c => f a (g c)) l a.
Proof. induction l as [|x l IH]; intros a; simpl; [reflexivity|apply IH]. Qed.

Lemma fold_left_nested {A B C : Type} (f : A -> B * C -> A) js ks :
  forall a,
    fold_left (fun a j => fold_left (fun a k => f a (j, k)) ks a) js a
    = fold_left f (list_prod js ks) a.
Proof.
  induction js as [|j js IH]; intros a; simpl; [reflexivity|].
  rewrite fold_left_app, fold_left_map. apply IH.
Qed.

Lemma elem_of_list_prod' {B C : Type} (js : list B) (ks : list C) j k :
  (j, k) ∈ list_prod js ks <-> j ∈ js /\ k ∈ ks.
Proof. rewrite !list_elem_of_In. apply in_prod_iff. Qed.

Lemma div2_bounds n : 2 * (n / 2) <= n < 2 * (n / 2) + 2.
Proof.
  pose proof (Z.mod_pos_bound n 2 ltac:(lia)).
  pose proof (Z.div_mod n 2 ltac:(lia)). lia.
Qed.

Lemma entry_sparse {K : Type} `{Countable K} (d : gmap K Z) x v :
  d !! x = sparse v -> entry d x = v.
Proof.
  unfold entry, sparse. intros ->.
  destruct (v =? 0) eqn:E; [apply Z.eqb_eq in E; congruence|reflexivity].
Qed.

(** ** The bottom-up occupancy table *)

Lemma T_val_out j k n m :
  j < 0 \/ k < 0 \/ n < 2 * j + k \/ m < j + k -> T_val j k n m = 0.
Proof.
  intros H. apply T_val_invalid. apply invalid_state_true.
  unfold valid_state. lia.
Qed.

(** The recurrence of [T_val] without its guard. *)
Lemma T_val_step j k n m :
  0 <= j -> 0 <= k -> 1 <= n ->
  T_val j k n m =
  j * T_val j k (n - 1) m + (k + 1) * T_val (j - 1) (k + 1) (n - 1) m
  + (m - j - k + 1) * T_val j (k - 1) (n - 1) m.
Proof.
  intros Hj Hk Hn.
  remember (Z.to_nat (n - 1)) as p eqn:Ep.
  replace (n - 1) with (Z.of_nat p) by lia.
  replace n with (Z.of_nat (S p)) by lia.
  rewrite !T_val_of_nat. apply Tz_step; assumption.
Qed.

Lemma T_cell_put m n prev curr j k :
  T_cell m n prev curr j k = put (T_upd m n prev) curr (j, k).
Proof.
  unfold T_cell, put, T_upd, T_new, sparse, entry.
  destruct ((n <? 2 * j + k) || (m <? j + k)); [reflexivity|].
  destruct (prev !! (j, k)), (0 <? j), (prev !! (j - 1, k + 1)),
    (0 <? k), (prev !! (j, k - 1));
    match goal with
    | |- (if ?a =? 0 then _ else _) = _ =>
        match goal with
        | |- _ = match (if ?b =? 0 then _ else _) with _ => _ end =>
            replace b with a by lia
        end
    end;
    match goal with |- context [?a =? 0] => destruct (a =? 0) end;
    reflexivity.
Qed.

Lemma T_layer_lookup m n prev j k :
  T_layer m n prev !! (j, k)
  = if decide (0 <= j <= n / 2 /\ 0 <= k <= Z.min n m)
    then T_upd m n prev (j, k) else None.
Proof.
  unfold T_layer.
  rewrite (fold_left_ext _
    (fun curr j => fold_left (fun curr k => put (T_upd m n prev) curr (j, k))
                             (range 0 (Z.min n m + 1)) curr)).
  2:{ intros a b. apply fold_left_ext. intros. apply T_cell_put. }
  rewrite (fold_left_nested (put (T_upd m n prev))), fold_put_lookup.
  rewrite lookup_empty.
  destruct (decide (_ ∈ _)) as [Hin|Hin];
    rewrite elem_of_list_prod', !elem_of_range in Hin;
    destruct (decide (0 <= j <= n / 2 /\ 0 <= k <= Z.min n m)) as [Hr|Hr];
    try lia; [|reflexivity].
  destruct (T_upd m n prev (j, k)); reflexivity.
Qed.

Lemma T_layer_correct m n prev :
  1 <= n ->
  (0 <= m -> forall j k, entry prev (j, k) = T_val j k (n - 1) m) ->
  forall j k, T_layer m n prev !! (j, k) = sparse (T_val j k n m).
Proof.
  intros Hn Hprev j k. rewrite T_layer_lookup.
  pose proof (div2_bounds n) as Hd.
  destruct (decide _) as [Hr|Hr].
  - unfold T_upd.
    destruct ((n <? 2 * j + k) || (m <? j + k)) eqn:Hg.
    + apply orb_true_iff in Hg. rewrite Z.ltb_lt, Z.ltb_lt in Hg.
      rewrite T_val_out by lia. reflexivity.
    + apply orb_false_iff in Hg. rewrite !Z.ltb_ge in Hg.
      f_equal. unfold T_new. rewrite !Hprev by lia.
      rewrite (T_val_step j k n m) by lia.
      destruct (0 <? j) eqn:Ej; destruct (0 <? k) eqn:Ek;
        try apply Z.ltb_ge in Ej; try apply Z.ltb_ge in Ek;
        try rewrite (T_val_out (j - 1)) by lia;
        try rewrite (T_val_out j (k - 1)) by lia; lia.
  - rewrite T_val_out; [reflexivity|]. lia.
Qed.

Lemma T_loop_snoc m a b :
  a <= b ->
  T_loop m (range a (b + 1)) =
  let curr := T_layer m b (fst (T_loop m (range a b))) in (curr, curr).
Proof.
  intros H. unfold T_loop. rewrite range_snoc, fold_left_app by assumption.
  reflexivity.
Qed.

Lemma T_loop_entry m (N : nat) :
  0 <= m ->
  forall j k,
    entry (fst (T_loop m (range 1 (Z.of_nat N + 1)))) (j, k)
    = T_val j k (Z.of_nat N) m.
Proof.
  intros Hm. induction N as [|N IH]; intros j k.
  - simpl. unfold T_loop. simpl. unfold entry.
    destruct (decide ((0, 0) = (j, k))) as [E|E].
    + inversion E; subst. rewrite lookup_singleton_eq.
      symmetry. apply T_val_base. assumption.
    + rewrite lookup_singleton_ne by assumption.
      symmetry. apply T_val_out.
      destruct (Z.eq_dec j 0), (Z.eq_dec k 0); subst; try congruence; lia.
  - rewrite T_loop_snoc by lia. cbv zeta. cbn [fst].
    apply entry_sparse. apply T_layer_correct; [lia|].
    intros _ j' k'. replace (Z.of_nat (S N)) with (Z.of_nat N + 1) by lia.
    rewrite IH. f_equal. lia.
Qed.

(** For a positive target the returned dictionary is exactly the layer of
    the non-zero counts. *)
Lemma T_bottomup_lookup n m j k :
  1 <= n -> T_bottomup n m !! (j, k) = sparse (T_val j k n m).
Proof.
  intros Hn. unfold T_bottomup.
  replace n with (Z.of_nat (S (Z.to_nat (n - 1)))) at 1 by lia.
  rewrite T_loop_snoc by lia. cbv zeta. cbn [snd].
  replace (Z.of_nat (S (Z.to_nat (n - 1)))) with n by lia.
  apply T_layer_correct; [assumption|].
  intros Hm j' k'.
  replace (Z.of_nat (Z.to_nat (n - 1)) + 1) with n by lia.
  pose proof (T_loop_entry m (Z.to_nat (n - 1)) Hm j' k') as H.
  replace (Z.of_nat (Z.to_nat (n - 1)) + 1) with n in H by lia.
  rewrite H. f_equal. lia.
Qed.

Lemma T_bottomup_nonpos n m : n <= 0 -> T_bottomup n m = ∅.
Proof.
  intros Hn. unfold T_bottomup. rewrite range_nil by lia. reflexivity.
Qed.

(** ** The bottom-up Stirling table *)

Lemma fold_left_ext_in {A B : Type} (f g : A -> B -> A) l :
  (forall a b, b ∈ l -> f a b = g a b) ->
  forall a, fold_left f l a = fold_left g l a.
Proof.
  induction l as [|x l IH]; intros E a; simpl; [reflexivity|].
  rewrite E by (apply elem_of_cons; auto).
  apply IH. intros a' b Hb. apply E. apply elem_of_cons. auto.
Qed.

Lemma S_val_out n k : 0 <= n -> (0 < n /\ k <= 0) \/ n < 2 * k -> S_val n k = 0.
Proof.
  intros Hn H. apply S_val_invalid; [assumption|].
  apply invalid_stirling_true. unfold valid_stirling. lia.
Qed.

Lemma S_val_0 k : S_val 0 k = if k =? 0 then 1 else 0.
Proof. reflexivity. Qed.

Lemma S_cell_put n prev2 prev1 curr k :
  S_cell n prev2 prev1 curr k = put (S_upd n prev2 prev1) curr k.
Proof.
  unfold S_cell, put, S_upd, S_new, sparse, entry.
  destruct (n <? 2 * k); [reflexivity|].
  destruct (prev1 !! k), (prev2 !! (k - 1));
    match goal with
    | |- (if ?a =? 0 then _ else _) = _ =>
        match goal with
        | |- _ = match (if ?b =? 0 then _ else _) with _ => _ end =>
            replace b with a by lia
        end
    end;
    match goal with |- context [?a =? 0] => destruct (a =? 0) end;
    reflexivity.
Qed.

Lemma S_layer_correct n prev2 prev1 :
  2 <= n ->
  (forall k, entry prev1 k = S_val (n - 1) k) ->
  (forall k, entry prev2 k = S_val (n - 2) k) ->
  forall k,
    fold_left (S_cell n prev2 prev1) (range 1 (n / 2 + 1)) ∅ !! k
    = sparse (S_val n k).
Proof.
  intros Hn H1 H2 k.
  rewrite (fold_left_ext _ (put (S_upd n prev2 prev1)))
    by (intros; apply S_cell_put).
  rewrite fold_put_lookup, lookup_empty.
  pose proof (div2_bounds n) as Hd.
  destruct (decide (k ∈ _)) as [Hin|Hin]; rewrite elem_of_range in Hin.
  - unfold S_upd.
    replace (n <? 2 * k) with false by (symmetry; apply Z.ltb_ge; lia).
    unfold S_new. rewrite H1, H2.
    rewrite <- S_val_rec by (unfold valid_stirling; lia).
    destruct (sparse (S_val n k)); reflexivity.
  - rewrite S_val_out by lia. reflexivity.
Qed.

Lemma S_loop_snoc a b :
  a <= b ->
  S_loop (range a (b + 1)) = S_step (S_loop (range a b)) b.
Proof.
  intros H. unfold S_loop. rewrite range_snoc, fold_left_app by assumption.
  reflexivity.
Qed.

Lemma S_loop_correct (N : nat) :
  let st := S_loop (range 2 (Z.of_nat N + 2)) in
  (forall k, entry (fst st) k = S_val (Z.of_nat N) k)
  /\ (forall k, entry (snd st) k = S_val (Z.of_nat N + 1) k)
  /\ ((1 <= N)%nat ->
      forall k, snd st !! k = sparse (S_val (Z.of_nat N + 1) k)).
Proof.
  induction N as [|N IH]; cbv zeta.
  - rewrite range_nil by lia. unfold S_loop. cbn [fold_left fst snd].
    split; [|split].
    + intros k. unfold entry. rewrite S_val_0.
      destruct (k =? 0) eqn:E.
      * apply Z.eqb_eq in E. subst. rewrite lookup_singleton_eq. reflexivity.
      * apply Z.eqb_neq in E. rewrite lookup_singleton_ne by congruence.
        reflexivity.
    + intros k. unfold entry. rewrite lookup_empty.
      symmetry. destruct (Z_le_gt_dec k 0); apply S_val_out; simpl; lia.
    + lia.
  - cbv zeta in IH. destruct IH as (I1 & I2 & _).
    replace (Z.of_nat (S N) + 2) with (Z.of_nat N + 2 + 1) by lia.
    rewrite S_loop_snoc by lia.
    destruct (S_loop (range 2 (Z.of_nat N + 2))) as [p2 p1].
    cbn [fst snd] in *. unfold S_step. cbn [fst snd].
    assert (forall k,
      fold_left (S_cell (Z.of_nat N + 2) p2 p1)
                (range 1 ((Z.of_nat N + 2) / 2 + 1)) ∅ !! k
      = sparse (S_val (Z.of_nat (S N) + 1) k)) as HL.
    { intros k. replace (Z.of_nat (S N) + 1) with (Z.of_nat N + 2) by lia.
      apply S_layer_correct; [lia| |].
      - intros k'. rewrite I2. f_equal. lia.
      - intros k'. rewrite I1. f_equal. lia. }
    split; [|split].
    + intros k. rewrite I2. f_equal. lia.
    + intros k. apply entry_sparse. apply HL.
    + intros _. exact HL.
Qed.

(** The returned dictionary is the row of the non-zero Stirling numbers,
    except that for [n_target = 1] it is the row of [n = 0]. *)
Lemma assoc_stirling_bottomup_lookup n k :
  0 <= n -> n <> 1 ->
  assoc_stirling_bottomup n !! k = sparse (S_val n k).
Proof.
  intros Hn Hn1. unfold assoc_stirling_bottomup.
  destruct (n =? 0) eqn:E0.
  - apply Z.eqb_eq in E0. subst. rewrite S_val_0.
    destruct (k =? 0) eqn:E.
    + apply Z.eqb_eq in E. subst. apply lookup_singleton_eq.
    + apply Z.eqb_neq in E. rewrite lookup_singleton_ne by congruence.
      reflexivity.
  - apply Z.eqb_neq in E0.
    pose proof (S_loop_correct (Z.to_nat (n - 1))) as H. cbv zeta in H.
    replace (Z.of_nat (Z.to_nat (n - 1)) + 2) with (n + 1) in H by lia.
    replace (Z.of_nat (Z.to_nat (n - 1)) + 1) with n in H by lia.
    destruct (S_loop (range 2 (n + 1))) as [p2 p1]. cbn [fst snd] in H.
    replace (2 <=? n) with true by (symmetry; apply Z.leb_le; lia).
    apply H. lia.
Qed.

Lemma assoc_stirling_bottomup_small n :
  n <= 1 -> assoc_stirling_bottomup n = {[ 0 := 1 ]}.
Proof.
  intros Hn. unfold assoc_stirling_bottomup.
  destruct (n =? 0); [reflexivity|].
  rewrite range_nil by lia. unfold S_loop. cbn [fold_left].
  replace (2 <=? n) with false by (symmetry; apply Z.leb_gt; lia).
  reflexivity.
Qed.

(** ** The bottom-up assemblers *)

Lemma prob_r1_bottomup_eval m n :
  m <> 0 ->
  prob_r1_bottomup m n = Val (inject_Z (T_sum m n) / inject_Z m ^ n)%Q.
Proof.
  intros Hm. unfold prob_r1_bottomup.
  rewrite <- (normalise_eval (T_sum m n) m n Hm). do 3 f_equal.
  unfold T_sum. apply fold_left_ext_in. intros a j Hj.
  apply elem_of_range in Hj.
  pose proof (div2_bounds n) as Hd.
  rewrite T_bottomup_lookup by lia.
  unfold sparse. destruct (T_val j 0 n m =? 0) eqn:E; [|reflexivity].
  apply Z.eqb_eq in E. lia.
Qed.

Lemma prob_r3_bottomup_eval m n :
  m <> 0 ->
  prob_r3_bottomup m n = Val (inject_Z (S_sum m n) / inject_Z m ^ n)%Q.
Proof.
  intros Hm. unfold prob_r3_bottomup.
  rewrite <- (normalise_eval (S_sum m n) m n Hm). do 3 f_equal.
  unfold S_sum. apply fold_left_ext_in. intros a k Hk.
  apply elem_of_range in Hk.
  pose proof (div2_bounds n) as Hd.
  rewrite assoc_stirling_bottomup_lookup by lia.
  unfold sparse. destruct (S_val n k =? 0) eqn:E; [|reflexivity].
  apply Z.eqb_eq in E. rewrite E. lia.
Qed.

(** ** The bottom-up probability table *)

Lemma P_val_out j k n m :
  j < 0 \/ k < 0 \/ n < 2 * j + k \/ m < j + k -> (P_val j k n m == 0)%Q.
Proof.
  intros H. apply P_val_invalid. apply invalid_state_true.
  unfold valid_state. lia.
Qed.

(** The recurrence of [P_val] without its guard. *)
Lemma P_val_step j k n m :
  0 <= j -> 0 <= k -> 1 <= n -> m <> 0 ->
  (P_val j k n m ==
   1 / inject_Z m *
   (inject_Z j * P_val j k (n - 1) m
    + inject_Z (k + 1) * P_val (j - 1) (k + 1) (n - 1) m
    + inject_Z (m - j - k + 1) * P_val j (k - 1) (n - 1) m))%Q.
Proof.
  intros Hj Hk Hn Hm. unfold P_val.
  rewrite (T_val_step j k n m) by assumption.
  rewrite inject_Z_lin3.
  pose proof (inject_Z_nonzero _ Hm) as Hm'.
  assert (inject_Z m ^ n == inject_Z m * inject_Z m ^ (n - 1))%Q as Hp.
  { replace n with (1 + (n - 1)) at 1 by lia.
    rewrite Qpower_plus by assumption. reflexivity. }
  rewrite Hp.
  pose proof (Qpower_not_0 (inject_Z m) (n - 1) Hm') as Hq.
  remember (inject_Z m ^ (n - 1))%Q as p eqn:Ep.
  remember (inject_Z m) as a eqn:Ea.
  clear Ep Ea Hp. field. split; assumption.
Qed.

Lemma P_cell_put m n m_inv prev curr j k :
  P_cell m n m_inv prev curr j k = put (P_upd m n m_inv prev) curr (j, k).
Proof.
  unfold P_cell, put, P_upd. fold (P_new m m_inv prev j k).
  destruct (n <? 2 * j + k); [reflexivity|].
  destruct (Qeq_bool (P_new m m_inv prev j k) 0); reflexivity.
Qed.

Lemma P_new_eq m m_inv prev j k :
  (P_new m m_inv prev j k ==
   m_inv *
   (inject_Z j * entryQ prev (j, k)
    + (if (0 <? j)%Z
       then inject_Z (k + 1) * entryQ prev ((j - 1)%Z, (k + 1)%Z) else 0)
    + (if (0 <? k)%Z
       then inject_Z (m - j - k + 1) * entryQ prev (j, (k - 1)%Z) else 0)))%Q.
Proof.
  unfold P_new, entryQ.
  destruct (prev !! (j, k)), (0 <? j), (prev !! (j - 1, k + 1)),
    (0 <? k), (prev !! (j, k - 1)); ring.
Qed.

Lemma P_layer_lookup m n m_inv prev j k :
  P_layer m n m_inv prev !! (j, k)
  = if decide (0 <= j <= n / 2 /\ 0 <= k <= Z.min n m)
    then P_upd m n m_inv prev (j, k) else None.
Proof.
  unfold P_layer.
  rewrite (fold_left_ext _
    (fun curr j =>
       fold_left (fun curr k => put (P_upd m n m_inv prev) curr (j, k))
                 (range 0 (Z.min n m + 1)) curr)).
  2:{ intros a b. apply fold_left_ext. intros. apply P_cell_put. }
  rewrite (fold_left_nested (put (P_upd m n m_inv prev))), fold_put_lookup.
  rewrite lookup_empty.
  destruct (decide (_ ∈ _)) as [Hin|Hin];
    rewrite elem_of_list_prod', !elem_of_range in Hin;
    destruct (decide (0 <= j <= n / 2 /\ 0 <= k <= Z.min n m)) as [Hr|Hr];
    try lia; [|reflexivity].
  destruct (P_upd m n m_inv prev (j, k)); reflexivity.
Qed.

Lemma P_layer_correct m n prev :
  m <> 0 -> 1 <= n ->
  (0 <= m -> forall j k, (entryQ prev (j, k) == P_val j k (n - 1) m)%Q) ->
  P_layer_ok (P_layer m n (1 / inject_Z m) prev) n m.
Proof.
  intros Hm Hn Hprev j k. rewrite P_layer_lookup.
  pose proof (div2_bounds n) as Hd.
  destruct (decide _) as [Hr|Hr].
  2:{ apply P_val_out. lia. }
  unfold P_upd. destruct (n <? 2 * j + k) eqn:Hg.
  { apply Z.ltb_lt in Hg. apply P_val_out. lia. }
  apply Z.ltb_ge in Hg.
  assert (P_new m (1 / inject_Z m) prev j k == P_val j k n m)%Q as HP.
  { rewrite P_new_eq, (P_val_step j k n m) by lia.
    destruct (0 <? j) eqn:Ej; destruct (0 <? k) eqn:Ek;
      try apply Z.ltb_ge in Ej; try apply Z.ltb_ge in Ek;
      rewrite !Hprev by lia;
      try rewrite (P_val_out (j - 1)) by lia;
      try rewrite (P_val_out j (k - 1)) by lia; ring. }
  destruct (Qeq_bool (P_new m (1 / inject_Z m) prev j k) 0) eqn:Eq.
  - apply Qeq_bool_eq in Eq. rewrite <- HP. assumption.
  - split; [assumption|]. apply Qeq_bool_neq. assumption.
Qed.

Lemma P_layer_ok_entry L n m j k :
  P_layer_ok L n m -> (entryQ L (j, k) == P_val j k n m)%Q.
Proof.
  intros H. specialize (H j k). unfold entryQ.
  destruct (L !! (j, k)); [apply H|symmetry; assumption].
Qed.

Lemma P_loop_snoc m m_inv a b :
  a <= b ->
  P_loop m m_inv (range a (b + 1)) =
  let curr := P_layer m b m_inv (fst (P_loop m m_inv (range a b))) in
  (curr, curr).
Proof.
  intros H. unfold P_loop. rewrite range_snoc, fold_left_app by assumption.
  reflexivity.
Qed.

Lemma P_loop_entry m (N : nat) :
  m <> 0 -> 0 <= m ->
  forall j k,
    (entryQ (fst (P_loop m (1 / inject_Z m) (range 1 (Z.of_nat N + 1)))) (j, k)
     == P_val j k (Z.of_nat N) m)%Q.
Proof.
  intros Hm0 Hm. induction N as [|N IH]; intros j k.
  - simpl. unfold P_loop. simpl. unfold entryQ.
    destruct (decide ((0, 0) = (j, k))) as [E|E].
    + inversion E; subst. rewrite lookup_singleton_eq.
      symmetry. apply P_val_base. assumption.
    + rewrite lookup_singleton_ne by assumption.
      symmetry. apply P_val_out.
      destruct (Z.eq_dec j 0), (Z.eq_dec k 0); subst; try congruence; lia.
  - rewrite P_loop_snoc by lia. cbv zeta. cbn [fst].
    apply P_layer_ok_entry. apply P_layer_correct; [assumption|lia|].
    intros _ j' k'. replace (Z.of_nat (S N)) with (Z.of_nat N + 1) by lia.
    rewrite IH. replace (Z.of_nat N + 1 - 1) with (Z.of_nat N) by lia.
    reflexivity.
Qed.

Lemma P_bottomup_correct n m :
  m <> 0 -> 1 <= n ->
  exists L, P_bottomup n m = Val L /\ P_layer_ok L n m.
Proof.
  intros Hm Hn. unfold P_bottomup.
  rewrite Mp_div_nonzero by assumption. cbn [bind].
  eexists. split; [reflexivity|].
  replace n with (Z.of_nat (S (Z.to_nat (n - 1)))) at 1 by lia.
  rewrite P_loop_snoc by lia. cbv zeta. cbn [snd].
  replace (Z.of_nat (S (Z.to_nat (n - 1)))) with n by lia.
  apply P_layer_correct; [assumption..|].
  intros Hm' j' k'.
  pose proof (P_loop_entry m (Z.to_nat (n - 1)) Hm Hm' j' k') as H.
  replace (Z.of_nat (Z.to_nat (n - 1)) + 1) with n in H by lia.
  replace (Z.of_nat (Z.to_nat (n - 1))) with (n - 1) in H by lia.
  exact H.
Qed.

Lemma P_bottomup_nonpos n m :
  m <> 0 -> n <= 0 -> P_bottomup n m = Val ∅.
Proof.
  intros Hm Hn. unfold P_bottomup.
  rewrite Mp_div_nonzero by assumption. cbn [bind].
  rewrite range_nil by lia. reflexivity.
Qed.

Lemma P_bottomup_zero n : P_bottomup n 0 = Raise ZeroDivisionError.
Proof. reflexivity. Qed.

Lemma P_fold_sum (L : gmap key2 Q) n m l :
  (forall j, (entryQ L (j, 0%Z) == P_val j 0 n m)%Q) ->
  forall acc z,
    (acc == inject_Z z / inject_Z m ^ n)%Q ->
    (fold_left (fun result j =>
                  match L !! (j, 0%Z) with
                  | Some v => (result + v)%Q
                  | None => result
                  end) l acc
     == inject_Z (fold_left (fun a j => (a + T_val j 0 n m)%Z) l z)
        / inject_Z m ^ n)%Q.
Proof.
  intros HL. induction l as [|j l IH]; intros acc z Hacc; simpl.
  - assumption.
  - apply IH. specialize (HL j). unfold entryQ in HL.
    rewrite inject_Z_plus.
    destruct (L !! (j, 0)).
    + rewrite Hacc, HL. unfold P_val, Qdiv. ring.
    + rewrite Hacc. unfold P_val in HL.
      transitivity (inject_Z z / inject_Z m ^ n
                    + inject_Z (T_val j 0 n m) / inject_Z m ^ n)%Q.
      * rewrite <- HL. ring.
      * unfold Qdiv. ring.
Qed.

Lemma prob_r2_bottomup_float_eval m n :
  m <> 0 ->
  exists q,
    prob_r2_bottomup_float m n = Val q
    /\ (q == inject_Z (T_sum m n) / inject_Z m ^ n)%Q.
Proof.
  intros Hm. unfold prob_r2_bottomup_float.
  destruct (Z_le_gt_dec n 0) as [Hn|Hn].
  - rewrite P_bottomup_nonpos by assumption. cbn [bind].
    eexists. split; [reflexivity|].
    pose proof (div2_bounds n). unfold T_sum.
    rewrite range_nil by lia. simpl.
    unfold Qdiv. change (inject_Z 0) with 0%Q. ring.
  - destruct (P_bottomup_correct n m Hm) as (L & E & HL); [lia|].
    rewrite E. cbn [bind]. eexists. split; [reflexivity|].
    unfold T_sum. apply P_fold_sum.
    + intros j. apply P_layer_ok_entry. assumption.
    + unfold Qdiv. change (inject_Z 0) with 0%Q. ring.
Qed.

(** ** What the seven probability functions return *)

Lemma returns_Val q x : (q == x)%Q -> returns (Val q) x.
Proof. intros H. exists q. auto. Qed.

Lemma returns_eq c x y : (x == y)%Q -> returns c x -> returns c y.
Proof. intros E (q & Hc & Hq). exists q. split; [assumption|]. rewrite Hq. assumption. Qed.

Lemma returns_bounds c x :
  (0 <= x <= 1)%Q -> returns c x -> returns_probability c.
Proof.
  intros Hx (q & Hc & Hq). exists q. split; [assumption|]. rewrite Hq. assumption.
Qed.

Lemma T_sum_0 m n : n <= 1 -> T_sum m n = 0.
Proof.
  intros Hn. unfold T_sum. pose proof (div2_bounds n).
  rewrite range_nil by lia. reflexivity.
Qed.

Lemma S_sum_0 m n : n <= 1 -> S_sum m n = 0.
Proof.
  intros Hn. unfold S_sum. pose proof (div2_bounds n).
  rewrite range_nil by lia. reflexivity.
Qed.

Lemma direct_sum_strong_count m n :
  0 <= m -> 0 <= n -> direct_sum m n 0 = strong_count m (Z.to_nat n).
Proof.
  intros Hm Hn. rewrite direct_sum_incl_excl by assumption.
  apply incl_excl_strong_count.
Qed.

Lemma prob_returns m n :
  1 <= m -> 0 <= n -> returns (prob m n 0) (strong_ratio m n).
Proof.
  intros Hm Hn. rewrite prob_eval by lia. apply returns_Val.
  unfold strong_ratio. rewrite direct_sum_strong_count by lia. reflexivity.
Qed.

Lemma prob_r1_returns m n :
  1 <= m -> 1 <= n -> returns (prob_r1 m n) (strong_ratio m n).
Proof.
  intros Hm Hn. rewrite prob_r1_eval by lia. apply returns_Val.
  unfold strong_ratio. rewrite T_sum_strong_count by lia. reflexivity.
Qed.

Lemma prob_r1_bottomup_returns m n :
  1 <= m -> 1 <= n -> returns (prob_r1_bottomup m n) (strong_ratio m n).
Proof.
  intros Hm Hn. rewrite prob_r1_bottomup_eval by lia. apply returns_Val.
  unfold strong_ratio. rewrite T_sum_strong_count by lia. reflexivity.
Qed.

Lemma prob_r2_float_returns m n :
  1 <= m -> 1 <= n -> returns (prob_r2_float m n) (strong_ratio m n).
Proof.
  intros Hm Hn. destruct (prob_r2_float_eval m n) as (q & E & Hq); [lia|].
  exists q. split; [assumption|]. rewrite Hq.
  unfold strong_ratio. rewrite T_sum_strong_count by lia. reflexivity.
Qed.

Lemma prob_r2_bottomup_float_returns m n :
  1 <= m -> 1 <= n -> returns (prob_r2_bottomup_float m n) (strong_ratio m n).
Proof.
  intros Hm Hn.
  destruct (prob_r2_bottomup_float_eval m n) as (q & E & Hq); [lia|].
  exists q. split; [assumption|]. rewrite Hq.
  unfold strong_ratio. rewrite T_sum_strong_count by lia. reflexivity.
Qed.

Lemma prob_r3_memo_returns m n :
  1 <= m -> 1 <= n -> returns (prob_r3_memo m n) (strong_ratio m n).
Proof.
  intros Hm Hn. rewrite prob_r3_memo_eval by lia. apply returns_Val.
  unfold strong_ratio. rewrite S_sum_strong_count by lia. reflexivity.
Qed.

Lemma prob_r3_bottomup_returns m n :
  1 <= m -> 1 <= n -> returns (prob_r3_bottomup m n) (strong_ratio m n).
Proof.
  intros Hm Hn. rewrite prob_r3_bottomup_eval by lia. apply returns_Val.
  unfold strong_ratio. rewrite S_sum_strong_count by lia. reflexivity.
Qed.

Lemma zero_ratio m n : (inject_Z 0 / inject_Z m ^ n == 0)%Q.
Proof. unfold Qdiv. change (inject_Z 0) with 0%Q. ring. Qed.

(** With nobody to place the six recurrence assemblers add up nothing. *)
Lemma recurrence_variants_at_0 m :
  m <> 0 ->
  returns (prob_r1 m 0) 0 /\ returns (prob_r1_bottomup m 0) 0
  /\ returns (prob_r2_float m 0) 0 /\ returns (prob_r2_bottomup_float m 0) 0
  /\ returns (prob_r3_memo m 0) 0 /\ returns (prob_r3_bottomup m 0) 0.
Proof.
  intros Hm.
  destruct (prob_r2_float_eval m 0 Hm) as (q & E & Hq).
  destruct (prob_r2_bottomup_float_eval m 0 Hm) as (q' & E' & Hq').
  rewrite T_sum_0 in Hq, Hq' by lia.
  rewrite prob_r1_eval, prob_r1_bottomup_eval, prob_r3_memo_eval,
    prob_r3_bottomup_eval by lia.
  rewrite T_sum_0, S_sum_0 by lia.
  repeat split; try (apply returns_Val; apply zero_ratio).
  - exists q. split; [assumption|]. rewrite Hq. apply zero_ratio.
  - exists q'. split; [assumption|]. rewrite Hq'. apply zero_ratio.
Qed.

Lemma strong_ratio_bounds m n :
  1 <= m -> 0 <= n -> (0 <= strong_ratio m n <= 1)%Q.
Proof.
  intros Hm Hn. apply Qdiv_pow_bounds; [assumption..|].
  pose proof (strong_count_bounds m (Z.to_nat n) ltac:(lia)) as H.
  rewrite Z2Nat.id in H by lia. assumption.
Qed.

Lemma strong_ratio_0 m : (strong_ratio m 0 == 1)%Q.
Proof. unfold strong_ratio. simpl Z.to_nat. rewrite strong_count_0. reflexivity. Qed.

Lemma strong_ratio_1 m : (strong_ratio m 1 == 0)%Q.
Proof.
  unfold strong_ratio. change (Z.to_nat 1) with 1%nat.
  rewrite strong_count_1. apply zero_ratio.
Qed.

(** ** Calls that cannot raise [TypeError] *)

Lemma bind_no_type_error {A B : Type} (c : res A) (f : A -> res B) :
  no_type_error c -> (forall a, no_type_error (f a)) ->
  no_type_error (bind c f).
Proof.
  unfold no_type_error. destruct c as [a|e|]; simpl; intros Hc Hf.
  - apply Hf.
  - intros E. apply Hc. inversion E. reflexivity.
  - discriminate.
Qed.

Lemma Val_no_type_error {A : Type} (a : A) : no_type_error (Val a).
Proof. unfold no_type_error. discriminate. Qed.

Lemma Mp_div_no_type_error x y : no_type_error (Mp.div x y).
Proof. unfold Mp.div, no_type_error. destruct (Qeq_bool y 0); discriminate. Qed.

Lemma Mp_power_no_type_error x n : no_type_error (Mp.power x n).
Proof.
  unfold Mp.power, no_type_error.
  destruct ((n <? 0) && Qeq_bool x 0); discriminate.
Qed.

Lemma for_each_no_type_error {A St : Type} (body : St -> A -> res St) l :
  (forall s x, no_type_error (body s x)) ->
  forall s, no_type_error (for_each body l s).
Proof.
  intros Hb. induction l as [|x l IH]; intros s; simpl.
  - apply Val_no_type_error.
  - apply bind_no_type_error; [apply Hb|apply IH].
Qed.

Lemma P_rec_no_type_error fuel : forall j k n m memo,
  no_type_error (P_rec fuel j k n m memo).
Proof.
  induction fuel as [|fuel IH]; intros j k n m memo; simpl.
  - unfold no_type_error. discriminate.
  - destruct (memo !! (j, k, n, m)); [apply Val_no_type_error|].
    destruct (invalid_state j k n m); [apply Val_no_type_error|].
    destruct ((j =? 0) && (k =? 0) && (n =? 0)); [apply Val_no_type_error|].
    apply bind_no_type_error; [apply Mp_div_no_type_error|]. intros m_inv.
    apply bind_no_type_error; [apply IH|]. intros [r1 memo1].
    apply bind_no_type_error; [apply IH|]. intros [r2 memo2].
    apply bind_no_type_error; [apply IH|]. intros [r3 memo3].
    apply Val_no_type_error.
Qed.

Lemma assoc_stirling_rec_no_type_error fuel : forall n k memo,
  no_type_error (assoc_stirling_rec fuel n k memo).
Proof.
  induction fuel as [|fuel IH]; intros n k memo; simpl.
  - unfold no_type_error. discriminate.
  - destruct (memo !! (n, k)); [apply Val_no_type_error|].
    destruct (invalid_stirling n k); [apply Val_no_type_error|].
    destruct ((n =? 0) && (k =? 0)); [apply Val_no_type_error|].
    apply bind_no_type_error; [apply IH|]. intros [r1 memo1].
    apply bind_no_type_error; [apply IH|]. intros [r2 memo2].
    apply Val_no_type_error.
Qed.

Lemma prob_r3_memo_no_type_error m n : no_type_error (prob_r3_memo m n).
Proof.
  unfold prob_r3_memo.
  apply bind_no_type_error.
  - apply for_each_no_type_error. intros [total memo] k.
    apply bind_no_type_error.
    + apply assoc_stirling_rec_no_type_error.
    + intros [sv memo']. destruct (sv =? 0); apply Val_no_type_error.
  - intros [total memo].
    apply bind_no_type_error; [apply Mp_power_no_type_error|].
    intros d. apply Mp_div_no_type_error.
Qed.

(** ** Invalid keys and the memo table *)

Lemma T_invalid_key j k n m memo :
  invalid_state j k n m = true ->
  T j k n m (Some memo) = Val (entry memo (j, k, n, m), memo).
Proof.
  intros H. unfold T, entry. simpl.
  destruct (memo !! (j, k, n, m)); [reflexivity|]. rewrite H. reflexivity.
Qed.

Lemma P_invalid_key j k n m memo :
  invalid_state j k n m = true ->
  P j k n m (Some memo) = Val (entryQ memo (j, k, n, m), memo).
Proof.
  intros H. unfold P, entryQ. simpl.
  destruct (memo !! (j, k, n, m)); [reflexivity|]. rewrite H. reflexivity.
Qed.

Lemma assoc_stirling_invalid_key n k memo :
  invalid_stirling n k = true ->
  assoc_stirling n k (Some memo) = Val (entry memo (n, k), memo).
Proof.
  intros H. unfold assoc_stirling, entry. simpl.
  destruct (memo !! (n, k)); [reflexivity|]. rewrite H. reflexivity.
Qed.

(** ** The direct formula outside its contract *)

Lemma prob_empty_range m n k :
  m <> 0 -> n < k -> returns (prob m n k) 0.
Proof.
  intros Hm Hk. rewrite prob_eval by assumption. apply returns_Val.
  unfold direct_sum. rewrite range_nil by lia. apply zero_ratio.
Qed.

Lemma prob_zero_days n k : n <> 0 -> prob 0 n k = Raise ZeroDivisionError.
Proof.
  intros Hn. unfold prob, Mp.power. change (inject_Z 0) with 0%Q.
  destruct (n <? 0) eqn:E; [reflexivity|]. simpl.
  unfold Mp.div.
  replace (Qeq_bool (0 ^ n) 0) with true; [reflexivity|].
  symmetry. apply Qeq_bool_iff. apply Qpower_0. assumption.
Qed.

Lemma prob_term_spec m n k j :
  j <= n -> prob_term m n k j = spec_summand m n k j.
Proof.
  intros Hj. unfold prob_term, spec_summand, spec_power.
  destruct (0 <? n - j) eqn:E1; destruct (n - j =? 0) eqn:E2;
    try reflexivity.
  - apply Z.ltb_lt in E1. apply Z.eqb_eq in E2. lia.
  - apply Z.ltb_ge in E1. apply Z.eqb_neq in E2. lia.
Qed.

Lemma direct_sum_spec m n k :
  k <= n + 1 ->
  direct_sum m n k
  = sumZ (Z.to_nat (n - k + 1)) (fun i => spec_summand m n k (k + Z.of_nat i)).
Proof.
  intros Hk. unfold direct_sum.
  replace (n + 1) with (k + Z.of_nat (Z.to_nat (n - k + 1))) by lia.
  rewrite (fold_range_sumZ (prob_term m n k)).
  replace (k + Z.of_nat (Z.to_nat (n - k + 1))) with (n + 1) by lia.
  apply sumZ_ext. intros i Hi. apply prob_term_spec. lia.
Qed.

(** ** The claims of the specification *)

(** C1: the five arbitrary-precision functions do not agree on every pair
    [(m, n)] with [m >= 1] and [n >= 0]: with nobody to place ([n = 0]) the
    direct formula [prob(m, 0, 0)] returns 1 while [prob_r1],
    [prob_r1_bottomup], [prob_r3_memo] and [prob_r3_bottomup] return 0,
    whatever [m >= 1] is. *)
Theorem C1_variants_differ_without_people m :
  1 <= m ->
  returns (prob m 0 0) 1
  /\ returns (prob_r1 m 0) 0 /\ returns (prob_r1_bottomup m 0) 0
  /\ returns (prob_r3_memo m 0) 0 /\ returns (prob_r3_bottomup m 0) 0.
Proof.
  intros Hm.
  destruct (recurrence_variants_at_0 m ltac:(lia))
    as (H1 & H2 & _ & _ & H5 & H6).
  split; [|auto].
  apply (returns_eq _ (strong_ratio m 0)); [apply strong_ratio_0|].
  apply prob_returns; lia.
Qed.

Lemma C1_variants_differ_without_people_witness :
  1 <= 1
  /\ (returns (prob 1 0 0) 1
      /\ returns (prob_r1 1 0) 0 /\ returns (prob_r1_bottomup 1 0) 0
      /\ returns (prob_r3_memo 1 0) 0 /\ returns (prob_r3_bottomup 1 0) 0).
Proof.
  split; [lia|apply (C1_variants_differ_without_people 1); lia].
Defined.

(** C2: for [m >= 1], [n >= 0] and [0 <= k <= n] the direct formula
    [prob(m, n, k)] returns [m^-n] times the sum over [j = k .. n] of
    [(-1)^(j-k) C(j,k) C(m,j) C(n,j) j! (m-j)^(n-j)], the last factor being
    1 whenever the exponent [n - j] is 0. *)
Theorem C2_direct_formula m n k :
  1 <= m -> 0 <= n -> 0 <= k <= n ->
  returns (prob m n k) (spec_direct m n k).
Proof.
  intros Hm Hn Hk. rewrite prob_eval by lia. apply returns_Val.
  unfold spec_direct. rewrite direct_sum_spec by lia.
  rewrite Qpower_opp. unfold Qdiv. ring.
Qed.

Lemma C2_direct_formula_witness :
  1 <= 3 /\ 0 <= 3 /\ 0 <= 1 <= 3 /\ returns (prob 3 3 1) (spec_direct 3 3 1).
Proof.
  split; [lia|]. split; [lia|]. split; [lia|].
  apply (C2_direct_formula 3 3 1); lia.
Defined.

(** C3: of the two boundary values, [prob(m, 1) = 0] holds for each of the
    seven probability functions and every [m >= 1], but [prob(m, 0) = 1]
    holds for the direct formula only: the six recurrence assemblers
    return 0 when [n = 0]. *)
Theorem C3_boundary_values m :
  1 <= m ->
  (returns (prob m 1 0) 0
   /\ returns (prob_r1 m 1) 0 /\ returns (prob_r1_bottomup m 1) 0
   /\ returns (prob_r2_float m 1) 0 /\ returns (prob_r2_bottomup_float m 1) 0
   /\ returns (prob_r3_memo m 1) 0 /\ returns (prob_r3_bottomup m 1) 0)
  /\ returns (prob m 0 0) 1
  /\ (returns (prob_r1 m 0) 0 /\ returns (prob_r1_bottomup m 0) 0
      /\ returns (prob_r2_float m 0) 0
      /\ returns (prob_r2_bottomup_float m 0) 0
      /\ returns (prob_r3_memo m 0) 0 /\ returns (prob_r3_bottomup m 0) 0).
Proof.
  intros Hm. split; [|split].
  - repeat split; apply (returns_eq _ (strong_ratio m 1));
      try apply strong_ratio_1.
    + apply prob_returns; lia.
    + apply prob_r1_returns; lia.
    + apply prob_r1_bottomup_returns; lia.
    + apply prob_r2_float_returns; lia.
    + apply prob_r2_bottomup_float_returns; lia.
    + apply prob_r3_memo_returns; lia.
    + apply prob_r3_bottomup_returns; lia.
  - apply (returns_eq _ (strong_ratio m 0)); [apply strong_ratio_0|].
    apply prob_returns; lia.
  - apply recurrence_variants_at_0. lia.
Qed.

Lemma C3_boundary_values_witness :
  1 <= 2
  /\ ((returns (prob 2 1 0) 0
       /\ returns (prob_r1 2 1) 0 /\ returns (prob_r1_bottomup 2 1) 0
       /\ returns (prob_r2_float 2 1) 0
       /\ returns (prob_r2_bottomup_float 2 1) 0
       /\ returns (prob_r3_memo 2 1) 0 /\ returns (prob_r3_bottomup 2 1) 0)
      /\ returns (prob 2 0 0) 1
      /\ (returns (prob_r1 2 0) 0 /\ returns (prob_r1_bottomup 2 0) 0
          /\ returns (prob_r2_float 2 0) 0
          /\ returns (prob_r2_bottomup_float 2 0) 0
          /\ returns (prob_r3_memo 2 0) 0 /\ returns (prob_r3_bottomup 2 0) 0)).
Proof.
  split; [lia|apply (C3_boundary_values 2); lia].
Defined.

(** C4: at the target [n = 0] the bottom-up table and the memoised
    recursion differ on the valid state [(0, 0, 0, m)]: [T_bottomup(0, m)]
    is the empty dictionary, so its entry for [(0, 0)] reads 0, while
    [T(0, 0, 0, m)] is 1. *)
Theorem C4_bottomup_misses_the_base_state m :
  0 <= m ->
  valid_state 0 0 0 m
  /\ T_bottomup 0 m = ∅
  /\ entry (T_bottomup 0 m) (0, 0) = 0
  /\ T 0 0 0 m None = Val (1, ∅).
Proof.
  intros Hm. split; [unfold valid_state; lia|].
  split; [reflexivity|]. split; [reflexivity|].
  unfold T. simpl. rewrite lookup_empty.
  replace (invalid_state 0 0 0 m) with false; [reflexivity|].
  symmetry. apply invalid_state_false. unfold valid_state. lia.
Qed.

Lemma C4_bottomup_misses_the_base_state_witness :
  0 <= 1
  /\ (valid_state 0 0 0 1
      /\ T_bottomup 0 1 = ∅
      /\ entry (T_bottomup 0 1) (0, 0) = 0
      /\ T 0 0 0 1 None = Val (1, ∅)).
Proof.
  split; [lia|apply (C4_bottomup_misses_the_base_state 1); lia].
Defined.

(** C5, as the code has it: the memo table is consulted before the validity
    test.  On a key that fails the validity predicate, [T], [P] and
    [assoc_stirling] return the value stored under that key if there is one
    and 0 otherwise, and in both cases hand the table back unchanged. *)
Theorem C5_invalid_key_reads_the_memo j k n m memo pmemo n' k' smemo :
  invalid_state j k n m = true ->
  invalid_stirling n' k' = true ->
  T j k n m (Some memo) = Val (entry memo (j, k, n, m), memo)
  /\ P j k n m (Some pmemo) = Val (entryQ pmemo (j, k, n, m), pmemo)
  /\ assoc_stirling n' k' (Some smemo) = Val (entry smemo (n', k'), smemo).
Proof.
  intros H1 H2. split; [|split].
  - apply T_invalid_key. assumption.
  - apply P_invalid_key. assumption.
  - apply assoc_stirling_invalid_key. assumption.
Qed.

Lemma C5_invalid_key_reads_the_memo_witness :
  invalid_state (-1) 0 0 1 = true
  /\ invalid_stirling 1 0 = true
  /\ (T (-1) 0 0 1 (Some ∅) = Val (entry (∅ : gmap key4 Z) (-1, 0, 0, 1), ∅)
      /\ P (-1) 0 0 1 (Some ∅)
         = Val (entryQ (∅ : gmap key4 Q) (-1, 0, 0, 1), ∅)
      /\ assoc_stirling 1 0 (Some ∅)
         = Val (entry (∅ : gmap key2 Z) (1, 0), ∅)).
Proof.
  split; [reflexivity|]. split; [reflexivity|].
  apply (C5_invalid_key_reads_the_memo (-1) 0 0 1 ∅ ∅ 1 0 ∅); reflexivity.
Defined.

(** C5, counterexample: the key [(-1, 0, 0, 1)] fails the validity
    predicate, yet on a memo table that holds 5 under it [T] returns 5. *)
Lemma C5_counterexample :
  invalid_state (-1) 0 0 1 = true
  /\ T (-1) 0 0 1 (Some {[ (-1, 0, 0, 1) := 5 ]})
     = Val (5, {[ (-1, 0, 0, 1) := 5 ]}).
Proof.
  split; [reflexivity|].
  rewrite T_invalid_key by reflexivity. unfold entry.
  rewrite lookup_singleton_eq. reflexivity.
Qed.

(** C6, as the code has it: [prob] validates nothing.  When [k > n], which
    covers every negative [n] with [k >= 0], the loop is empty: the call
    returns 0 if [m] is not 0, and raises [ZeroDivisionError] if [m = 0]
    and [n] is not 0. *)
Theorem C6_no_validation m n k :
  n < k ->
  (m <> 0 -> returns (prob m n k) 0)
  /\ (m = 0 -> n <> 0 -> prob m n k = Raise ZeroDivisionError).
Proof.
  intros Hk. split.
  - intros Hm. apply prob_empty_range; assumption.
  - intros -> Hn. apply prob_zero_days. assumption.
Qed.

Lemma C6_no_validation_witness :
  1 < 5
  /\ ((2 <> 0 -> returns (prob 2 1 5) 0)
      /\ (2 = 0 -> 1 <> 0 -> prob 2 1 5 = Raise ZeroDivisionError)).
Proof.
  split; [lia|apply (C6_no_validation 2 1 5); lia].
Defined.

(** C6, counterexample: [k = 5] outside [[0, 1]], [n = -1] and [m = -2]
    each give a numeric 0 rather than an error. *)
Lemma C6_counterexample :
  returns (prob 2 1 5) 0 /\ returns (prob 2 (-1) 0) 0
  /\ returns (prob (-2) 1 5) 0.
Proof. repeat split; apply prob_empty_range; lia. Qed.

(** C7: for every valid state [(j, k, n, m)] with [m >= 1], [P(j, k, n, m)]
    returns [T(j, k, n, m) / m^n], and that value lies in [[0, 1]]. *)
Theorem C7_P_is_T_over_pow j k n m :
  1 <= m -> valid_state j k n m ->
  exists t tmemo p pmemo,
    T j k n m None = Val (t, tmemo)
    /\ P j k n m None = Val (p, pmemo)
    /\ (p == inject_Z t / inject_Z m ^ n)%Q
    /\ (0 <= p <= 1)%Q.
Proof.
  intros Hm Hv.
  destruct (T_correct j k n m ∅ T_memo_ok_empty) as (tmemo & ET & _).
  destruct (P_correct j k n m ∅ ltac:(lia) P_memo_ok_empty)
    as (p & pmemo & EP & Hp & _).
  exists (T_val j k n m), tmemo, p, pmemo.
  split; [exact ET|]. split; [exact EP|]. split; [exact Hp|].
  rewrite Hp. unfold P_val. unfold valid_state in Hv.
  apply Qdiv_pow_bounds; [lia..|].
  replace n with (Z.of_nat (Z.to_nat n)) by lia. rewrite T_val_of_nat.
  split; [apply Tz_nonneg|apply Tz_le_pow; lia].
Qed.

Lemma C7_P_is_T_over_pow_witness :
  1 <= 2 /\ valid_state 1 0 2 2
  /\ exists t tmemo p pmemo,
       T 1 0 2 2 None = Val (t, tmemo)
       /\ P 1 0 2 2 None = Val (p, pmemo)
       /\ (p == inject_Z t / inject_Z 2 ^ 2)%Q
       /\ (0 <= p <= 1)%Q.
Proof.
  split; [lia|]. split; [unfold valid_state; lia|].
  apply (C7_P_is_T_over_pow 1 0 2 2); [lia|unfold valid_state; lia].
Defined.

(** C8: for every [m >= 1] and [n >= 0] each of the seven probability
    functions returns a value between 0 and 1. *)
Theorem C8_probabilities_in_unit_interval m n :
  1 <= m -> 0 <= n ->
  returns_probability (prob m n 0)
  /\ returns_probability (prob_r1 m n)
  /\ returns_probability (prob_r1_bottomup m n)
  /\ returns_probability (prob_r2_float m n)
  /\ returns_probability (prob_r2_bottomup_float m n)
  /\ returns_probability (prob_r3_memo m n)
  /\ returns_probability (prob_r3_bottomup m n).
Proof.
  intros Hm Hn.
  pose proof (strong_ratio_bounds m n Hm Hn) as Hb.
  split; [apply (returns_bounds _ _ Hb); apply prob_returns; assumption|].
  destruct (Z.eq_dec n 0) as [->|Hn0].
  - assert (0 <= 0 <= 1)%Q as H0 by (split; [apply Qle_refl|discriminate]).
    destruct (recurrence_variants_at_0 m ltac:(lia))
      as (H1 & H2 & H3 & H4 & H5 & H6).
    repeat split; eapply returns_bounds; eauto.
  - repeat split; apply (returns_bounds _ _ Hb).
    + apply prob_r1_returns; lia.
    + apply prob_r1_bottomup_returns; lia.
    + apply prob_r2_float_returns; lia.
    + apply prob_r2_bottomup_float_returns; lia.
    + apply prob_r3_memo_returns; lia.
    + apply prob_r3_bottomup_returns; lia.
Qed.

Lemma C8_probabilities_in_unit_interval_witness :
  1 <= 3 /\ 0 <= 4
  /\ (returns_probability (prob 3 4 0)
      /\ returns_probability (prob_r1 3 4)
      /\ returns_probability (prob_r1_bottomup 3 4)
      /\ returns_probability (prob_r2_float 3 4)
      /\ returns_probability (prob_r2_bottomup_float 3 4)
      /\ returns_probability (prob_r3_memo 3 4)
      /\ returns_probability (prob_r3_bottomup 3 4)).
Proof.
  split; [lia|]. split; [lia|].
  apply (C8_probabilities_in_unit_interval 3 4); lia.
Defined.

(** ** What the bottom-up tables store *)

Lemma T_val_nonzero_valid j k n m : T_val j k n m <> 0 -> valid_state j k n m.
Proof.
  intros H. apply invalid_state_false.
  destruct (invalid_state j k n m) eqn:Hi; [|reflexivity].
  exfalso. apply H. apply T_val_invalid. assumption.
Qed.

Lemma T_bottomup_stored n m j k v :
  T_bottomup n m !! (j, k) = Some v -> valid_state j k n m /\ v <> 0.
Proof.
  intros H. destruct (Z_le_gt_dec n 0) as [Hn|Hn].
  - rewrite T_bottomup_nonpos, lookup_empty in H by assumption. discriminate.
  - rewrite T_bottomup_lookup in H by lia. unfold sparse in H.
    destruct (T_val j k n m =? 0) eqn:E; [discriminate|].
    inversion H; subst. apply Z.eqb_neq in E.
    split; [apply T_val_nonzero_valid|]; assumption.
Qed.

Lemma P_bottomup_stored n m L j k v :
  P_bottomup n m = Val L -> L !! (j, k) = Some v ->
  valid_state j k n m /\ ~ (v == 0)%Q.
Proof.
  intros HL Hv.
  destruct (Z.eq_dec m 0) as [->|Hm].
  { rewrite P_bottomup_zero in HL. discriminate. }
  destruct (Z_le_gt_dec n 0) as [Hn|Hn].
  - rewrite P_bottomup_nonpos in HL by assumption.
    inversion HL; subst. rewrite lookup_empty in Hv. discriminate.
  - destruct (P_bottomup_correct n m Hm) as (L' & E & Hok); [lia|].
    rewrite E in HL. inversion HL; subst.
    specialize (Hok j k). rewrite Hv in Hok. destruct Hok as [Hp Hnz].
    split; [|assumption].
    apply T_val_nonzero_valid. intros Hz. apply Hnz.
    rewrite Hp. unfold P_val. rewrite Hz. apply zero_ratio.
Qed.

(** C9: every key [(j, k)] stored in the layer that [T_bottomup] or
    [P_bottomup] returns for [n] people satisfies [j >= 0], [k >= 0],
    [2j + k <= n] and [j + k <= m], and maps to a non-zero value; for
    [P_bottomup] this holds although its loop does not test [j + k <= m]. *)
Theorem C9_layer_invariant n m j k v L j' k' q :
  T_bottomup n m !! (j, k) = Some v ->
  P_bottomup n m = Val L -> L !! (j', k') = Some q ->
  (valid_state j k n m /\ v <> 0)
  /\ (valid_state j' k' n m /\ ~ (q == 0)%Q).
Proof.
  intros HT HL Hq. split.
  - apply T_bottomup_stored. assumption.
  - apply (P_bottomup_stored n m L); assumption.
Qed.

Lemma C9_layer_invariant_witness :
  T_bottomup 1 1 !! (0, 1) = Some 1
  /\ P_bottomup 1 1 = Val {[ (0, 1) := 1%Q ]}
  /\ ({[ (0, 1) := 1%Q ]} : gmap key2 Q) !! (0, 1) = Some 1%Q
  /\ ((valid_state 0 1 1 1 /\ 1 <> 0)
      /\ (valid_state 0 1 1 1 /\ ~ (1 == 0)%Q)).
Proof.
  split; [vm_compute; reflexivity|].
  split; [vm_compute; reflexivity|].
  split; [vm_compute; reflexivity|].
  apply (C9_layer_invariant 1 1 0 1 1 {[ (0, 1) := 1%Q ]} 0 1 1%Q);
    vm_compute; reflexivity.
Defined.

(** C10: [assoc_stirling(n, k)] with the memo left to its default [None]
    raises [TypeError] for every [(n, k)]; [T] and [P] with [None] run on a
    fresh empty table instead, and [T] returns a value; [prob_r3_memo]
    never raises [TypeError]. *)
Theorem C10_assoc_stirling_needs_a_memo n k j m m' n' :
  assoc_stirling n k None = Raise TypeError
  /\ T j k n m None = T j k n m (Some ∅)
  /\ P j k n m None = P j k n m (Some ∅)
  /\ (exists v memo', T j k n m None = Val (v, memo'))
  /\ no_type_error (P j k n m None)
  /\ no_type_error (prob_r3_memo m' n').
Proof.
  split; [reflexivity|]. split; [reflexivity|]. split; [reflexivity|].
  split; [|split].
  - destruct (T_correct j k n m ∅ T_memo_ok_empty) as (memo' & E & _).
    eauto.
  - apply P_rec_no_type_error.
  - apply prob_r3_memo_no_type_error.
Qed.

(** ** Further properties of the engines *)

Lemma T_None j k n m : T j k n m None = T j k n m (Some ∅).
Proof. reflexivity. Qed.

Lemma T_val_closed j k n m :
  0 <= m -> 0 <= j -> 0 <= k <= n ->
  T_val j k n m
  = Mp.binomial m (j + k) * Mp.factorial (j + k) * Mp.binomial n k
    * S_val (n - k) j.
Proof.
  intros Hm Hj Hk.
  rewrite binomial_factorial_ff by lia.
  replace n with (Z.of_nat (Z.to_nat n)) at 1 by lia.
  rewrite T_val_of_nat.
  pose proof (Tz_closed (Z.to_nat n) (Z.to_nat j) (Z.to_nat k) m Hm) as H.
  unfold T_closed in H. rewrite !Z2Nat.id in H by lia. rewrite H.
  unfold Mp.binomial.
  replace (n - k) with (Z.of_nat (Z.to_nat n - Z.to_nat k)) by lia.
  rewrite S_val_of_nat.
  replace (Z.to_nat (j + k)) with (Z.to_nat j + Z.to_nat k)%nat by lia.
  reflexivity.
Qed.

Lemma normalise_zero_days x n :
  n <> 0 ->
  (denominator <-- Mp.power (inject_Z 0) n ;; Mp.div x denominator)
  = Raise ZeroDivisionError.
Proof.
  intros Hn. unfold Mp.power. change (inject_Z 0) with 0%Q.
  destruct (n <? 0) eqn:E; [reflexivity|]. simpl.
  unfold Mp.div.
  replace (Qeq_bool (0 ^ n) 0) with true; [reflexivity|].
  symmetry. apply Qeq_bool_iff. apply Qpower_0. assumption.
Qed.

Lemma prob_r2_loop_zero_days n l : forall acc,
  Forall (fun j => 1 <= j) l ->
  exists r,
    for_each (fun '(result, memo) j =>
                '(term, memo') <-- P j 0 n 0 (Some memo) ;;
                Val ((result + term)%Q, memo')) l (acc, ∅)
    = Val (r, ∅)
    /\ (r == acc)%Q.
Proof.
  induction l as [|j l IH]; intros acc Hl.
  - simpl. exists acc. split; reflexivity.
  - inversion Hl as [|? ? Hj Hl']; subst.
    cbn [for_each]. cbv beta iota.
    rewrite P_invalid_key.
    2:{ apply invalid_state_true. unfold valid_state. lia. }
    cbn [bind]. unfold entryQ. rewrite lookup_empty.
    destruct (IH (acc + 0)%Q Hl') as (r & E & Hr).
    exists r. split; [exact E|]. rewrite Hr. ring.
Qed.

(** For at least one day and one person the seven probability functions
    return the same rational: the Stirling sum over [m^n]. *)
Theorem all_variants_agree m n :
  1 <= m -> 1 <= n ->
  returns (prob m n 0) (strong_ratio m n)
  /\ returns (prob_r1 m n) (strong_ratio m n)
  /\ returns (prob_r1_bottomup m n) (strong_ratio m n)
  /\ returns (prob_r2_float m n) (strong_ratio m n)
  /\ returns (prob_r2_bottomup_float m n) (strong_ratio m n)
  /\ returns (prob_r3_memo m n) (strong_ratio m n)
  /\ returns (prob_r3_bottomup m n) (strong_ratio m n).
Proof.
  intros Hm Hn. repeat split.
  - apply prob_returns; lia.
  - apply prob_r1_returns; assumption.
  - apply prob_r1_bottomup_returns; assumption.
  - apply prob_r2_float_returns; assumption.
  - apply prob_r2_bottomup_float_returns; assumption.
  - apply prob_r3_memo_returns; assumption.
  - apply prob_r3_bottomup_returns; assumption.
Qed.

Lemma all_variants_agree_witness :
  1 <= 3 /\ 1 <= 4
  /\ (returns (prob 3 4 0) (strong_ratio 3 4)
      /\ returns (prob_r1 3 4) (strong_ratio 3 4)
      /\ returns (prob_r1_bottomup 3 4) (strong_ratio 3 4)
      /\ returns (prob_r2_float 3 4) (strong_ratio 3 4)
      /\ returns (prob_r2_bottomup_float 3 4) (strong_ratio 3 4)
      /\ returns (prob_r3_memo 3 4) (strong_ratio 3 4)
      /\ returns (prob_r3_bottomup 3 4) (strong_ratio 3 4)).
Proof.
  split; [lia|]. split; [lia|]. apply (all_variants_agree 3 4); lia.
Defined.

(** A memo table that holds only true values does not change what [T] and
    [assoc_stirling] return, and they hand back a table of the same kind. *)
Theorem memo_tables_are_transparent j k n m memo n' k' smemo :
  T_memo_ok memo -> S_memo_ok smemo -> 0 <= n' -> 0 <= k' ->
  exists v memo1 memo2 s smemo1 smemo2,
    T j k n m (Some memo) = Val (v, memo1)
    /\ T j k n m None = Val (v, memo2)
    /\ T_memo_ok memo1
    /\ assoc_stirling n' k' (Some smemo) = Val (s, smemo1)
    /\ assoc_stirling n' k' (Some ∅) = Val (s, smemo2)
    /\ S_memo_ok smemo1.
Proof.
  intros HT HS Hn Hk.
  destruct (T_correct j k n m memo HT) as (memo1 & E1 & Hok1).
  destruct (T_correct j k n m ∅ T_memo_ok_empty) as (memo2 & E2 & _).
  destruct (assoc_stirling_correct n' k' smemo HS Hn Hk)
    as (smemo1 & E3 & Hok3).
  destruct (assoc_stirling_correct n' k' ∅ S_memo_ok_empty Hn Hk)
    as (smemo2 & E4 & _).
  exists (T_val j k n m), memo1, memo2, (S_val n' k'), smemo1, smemo2.
  rewrite T_None. auto 10.
Qed.

Lemma memo_tables_are_transparent_witness :
  T_memo_ok (<[(0, 1, 1, 2) := T_val 0 1 1 2]> ∅)
  /\ S_memo_ok (<[(2, 1) := S_val 2 1]> ∅)
  /\ 0 <= 4 /\ 0 <= 2
  /\ exists v memo1 memo2 s smemo1 smemo2,
       T 1 0 2 2 (Some (<[(0, 1, 1, 2) := T_val 0 1 1 2]> ∅)) = Val (v, memo1)
       /\ T 1 0 2 2 None = Val (v, memo2)
       /\ T_memo_ok memo1
       /\ assoc_stirling 4 2 (Some (<[(2, 1) := S_val 2 1]> ∅))
          = Val (s, smemo1)
       /\ assoc_stirling 4 2 (Some ∅) = Val (s, smemo2)
       /\ S_memo_ok smemo1.
Proof.
  split; [apply T_memo_ok_insert, T_memo_ok_empty|].
  split; [apply S_memo_ok_insert, S_memo_ok_empty|].
  split; [lia|]. split; [lia|].
  apply (memo_tables_are_transparent 1 0 2 2 _ 4 2 _);
    [apply T_memo_ok_insert, T_memo_ok_empty
    |apply S_memo_ok_insert, S_memo_ok_empty|lia|lia].
Defined.

(** For a target of at least one person the layer [T_bottomup] returns
    agrees with the memoised [T] on every state, valid or not, an absent key
    standing for 0. *)
Theorem T_bottomup_agrees_with_T n m j k :
  1 <= n ->
  exists memo', T j k n m None = Val (entry (T_bottomup n m) (j, k), memo').
Proof.
  intros Hn.
  destruct (T_correct j k n m ∅ T_memo_ok_empty) as (memo' & E & _).
  exists memo'. rewrite T_None, E. do 2 f_equal. symmetry.
  apply entry_sparse. apply T_bottomup_lookup. assumption.
Qed.

Lemma T_bottomup_agrees_with_T_witness :
  1 <= 4
  /\ exists memo', T 2 0 4 3 None = Val (entry (T_bottomup 4 3) (2, 0), memo').
Proof. split; [lia|apply (T_bottomup_agrees_with_T 4 3 2 0); lia]. Defined.



(** For [n_target <= 1] the Stirling table is the row of [n = 0]; at
    [n_target = 1] it therefore holds 1 under the key 0, where the memoised
    [assoc_stirling(1, 0)] is 0. *)
Theorem assoc_stirling_bottomup_below_two n :
  n <= 1 ->
  assoc_stirling_bottomup n = {[ 0 := 1 ]}
  /\ entry (assoc_stirling_bottomup 1) 0 = 1
  /\ assoc_stirling 1 0 (Some ∅) = Val (0, ∅).
Proof.
  intros Hn. split; [apply assoc_stirling_bottomup_small; assumption|].
  split; reflexivity.
Qed.

Lemma assoc_stirling_bottomup_below_two_witness :
  1 <= 1
  /\ (assoc_stirling_bottomup 1 = {[ 0 := 1 ]}
      /\ entry (assoc_stirling_bottomup 1) 0 = 1
      /\ assoc_stirling 1 0 (Some ∅) = Val (0, ∅)).
Proof. split; [lia|apply (assoc_stirling_bottomup_below_two 1); lia]. Defined.

(** [T] counts placements: [T(j, k, n, m)] is the number of ways to pick
    and order [j + k] days, choose the [k] people who are alone, and split
    the other [n - k] people into [j] groups of at least two. *)
Theorem T_closed_form j k n m :
  0 <= m -> 0 <= j -> 0 <= k <= n ->
  exists t tmemo s smemo,
    T j k n m None = Val (t, tmemo)
    /\ assoc_stirling (n - k) j (Some ∅) = Val (s, smemo)
    /\ t = Mp.binomial m (j + k) * Mp.factorial (j + k) * Mp.binomial n k * s.
Proof.
  intros Hm Hj Hk.
  destruct (T_correct j k n m ∅ T_memo_ok_empty) as (tmemo & ET & _).
  destruct (assoc_stirling_correct (n - k) j ∅ S_memo_ok_empty)
    as (smemo & ES & _); [lia..|].
  exists (T_val j k n m), tmemo, (S_val (n - k) j), smemo.
  rewrite T_None. split; [exact ET|]. split; [exact ES|].
  apply T_val_closed; assumption.
Qed.

Lemma T_closed_form_witness :
  0 <= 3 /\ 0 <= 1 /\ 0 <= 2 <= 4
  /\ exists t tmemo s smemo,
       T 1 2 4 3 None = Val (t, tmemo)
       /\ assoc_stirling (4 - 2) 1 (Some ∅) = Val (s, smemo)
       /\ t = Mp.binomial 3 (1 + 2) * Mp.factorial (1 + 2) * Mp.binomial 4 2 * s.
Proof.
  split; [lia|]. split; [lia|]. split; [lia|].
  apply (T_closed_form 1 2 4 3); lia.
Defined.

(** The entries of a layer of [T_bottomup] add up to [m^n]: every
    assignment of the [n] people to the [m] days is counted in exactly one
    state. *)
Theorem T_bottomup_total n m N :
  1 <= n -> 0 <= m -> n < Z.of_nat N ->
  sumZ N (fun j => sumZ N (fun k =>
    entry (T_bottomup n m) (Z.of_nat j, Z.of_nat k))) = m ^ n.
Proof.
  intros Hn Hm HN.
  replace (m ^ n) with (m ^ Z.of_nat (Z.to_nat n)) by (f_equal; lia).
  rewrite <- (T_total_pow (Z.to_nat n) N m) by lia.
  unfold T_total. apply sumZ_ext2. intros j k.
  rewrite <- T_val_of_nat, Z2Nat.id by lia.
  apply entry_sparse. apply T_bottomup_lookup. assumption.
Qed.

Lemma T_bottomup_total_witness :
  1 <= 2 /\ 0 <= 2 /\ 2 < Z.of_nat 3
  /\ sumZ 3 (fun j => sumZ 3 (fun k =>
       entry (T_bottomup 2 2) (Z.of_nat j, Z.of_nat k))) = 2 ^ 2.
Proof.
  split; [lia|]. split; [lia|]. split; [lia|].
  apply (T_bottomup_total 2 2 3); lia.
Defined.

(** The layer [P_bottomup] returns holds, for every state, the count of the
    memoised [T] over [m^n], an absent key standing for 0. *)
Theorem P_bottomup_agrees_with_T n m j k :
  m <> 0 -> 1 <= n ->
  exists L t tmemo,
    P_bottomup n m = Val L
    /\ T j k n m None = Val (t, tmemo)
    /\ (entryQ L (j, k) == inject_Z t / inject_Z m ^ n)%Q.
Proof.
  intros Hm Hn.
  destruct (P_bottomup_correct n m Hm Hn) as (L & EL & Hok).
  destruct (T_correct j k n m ∅ T_memo_ok_empty) as (tmemo & ET & _).
  exists L, (T_val j k n m), tmemo. rewrite T_None.
  split; [exact EL|]. split; [exact ET|].
  apply (P_layer_ok_entry L n m j k Hok).
Qed.

Lemma P_bottomup_agrees_with_T_witness :
  2 <> 0 /\ 1 <= 2
  /\ exists L t tmemo,
       P_bottomup 2 2 = Val L
       /\ T 1 0 2 2 None = Val (t, tmemo)
       /\ (entryQ L (1%Z, 0%Z) == inject_Z t / inject_Z 2 ^ 2)%Q.
Proof.
  split; [lia|]. split; [lia|]. apply (P_bottomup_agrees_with_T 2 2 1 0); lia.
Defined.

(** With [m = 0] days and at least one person, six of the seven
    probability functions raise [ZeroDivisionError]; [prob_r2_float] returns
    0, because every state it asks for is pruned before the division. *)
Theorem zero_days n :
  1 <= n ->
  prob 0 n 0 = Raise ZeroDivisionError
  /\ prob_r1 0 n = Raise ZeroDivisionError
  /\ prob_r1_bottomup 0 n = Raise ZeroDivisionError
  /\ prob_r2_bottomup_float 0 n = Raise ZeroDivisionError
  /\ prob_r3_memo 0 n = Raise ZeroDivisionError
  /\ prob_r3_bottomup 0 n = Raise ZeroDivisionError
  /\ returns (prob_r2_float 0 n) 0.
Proof.
  intros Hn. split; [apply prob_zero_days; lia|].
  split.
  { unfold prob_r1.
    destruct (prob_r1_loop 0 n (range 1 (n / 2 + 1)) 0 ∅ T_memo_ok_empty)
      as (memo' & E & _).
    rewrite E. cbn [bind]. apply normalise_zero_days. lia. }
  split; [unfold prob_r1_bottomup; apply normalise_zero_days; lia|].
  split; [reflexivity|].
  split.
  { unfold prob_r3_memo.
    destruct (prob_r3_loop 0 n (range 1 (n / 2 + 1)) 0 ∅ ltac:(lia)
                (Forall_range_nonneg 1 _ ltac:(lia)) S_memo_ok_empty)
      as (memo' & E & _).
    cbv zeta in E. rewrite E. cbn [bind]. apply normalise_zero_days. lia. }
  split; [unfold prob_r3_bottomup; apply normalise_zero_days; lia|].
  unfold prob_r2_float.
  destruct (prob_r2_loop_zero_days n (range 1 (n / 2 + 1)) 0%Q) as (r & E & Hr).
  { apply Forall_forall. intros x Hx. apply elem_of_range in Hx. lia. }
  rewrite E. cbn [bind]. exists r. auto.
Qed.

Lemma zero_days_witness :
  1 <= 2
  /\ (prob 0 2 0 = Raise ZeroDivisionError
      /\ prob_r1 0 2 = Raise ZeroDivisionError
      /\ prob_r1_bottomup 0 2 = Raise ZeroDivisionError
      /\ prob_r2_bottomup_float 0 2 = Raise ZeroDivisionError
      /\ prob_r3_memo 0 2 = Raise ZeroDivisionError
      /\ prob_r3_bottomup 0 2 = Raise ZeroDivisionError
      /\ returns (prob_r2_float 0 2) 0).
Proof. split; [lia|apply (zero_days 2); lia]. Defined.

(** The alternating sum the direct formula adds up for [k = 0] is the sum
    over [i] of [m (m-1) ... (m-i+1) S(n, i)], the number of assignments in
    which no day has exactly one birthday. *)
Theorem inclusion_exclusion_is_stirling_sum m n :
  0 <= m -> 0 <= n ->
  direct_sum m n 0
  = sumZ (S (Z.to_nat n)) (fun i => ff m i * S_val n (Z.of_nat i)).
Proof.
  intros Hm Hn. rewrite direct_sum_strong_count by assumption.
  unfold strong_count. apply sumZ_ext. intros i _.
  rewrite <- S_val_of_nat, Z2Nat.id by lia. reflexivity.
Qed.

Lemma inclusion_exclusion_is_stirling_sum_witness :
  0 <= 3 /\ 0 <= 4
  /\ direct_sum 3 4 0
     = sumZ (S (Z.to_nat 4)) (fun i => ff 3 i * S_val 4 (Z.of_nat i)).
Proof.
  split; [lia|]. split; [lia|].
  apply (inclusion_exclusion_is_stirling_sum 3 4); lia.
Defined.






Lemma Sz_1 n : (2 <= n)%nat -> Sz n 1 = 1.
Proof.
  induction n as [|n IH]; intros Hn; [lia|].
  rewrite Sz_step. destruct n as [|[|n]]; [lia|reflexivity|].
  rewrite IH by lia. simpl pred. rewrite Sz_S_nonpos by lia. lia.
Qed.

Lemma strong_count_one_day n : (2 <= n)%nat -> strong_count 1 n = 1.
Proof.
  intros Hn. unfold strong_count.
  rewrite (sumZ_cut 2 (S n)).
  - simpl sumZ. change (Z.of_nat 1) with 1. rewrite Sz_1 by assumption.
    destruct n as [|n]; [lia|]. rewrite Sz_S_nonpos by (simpl; lia).
    simpl. lia.
  - lia.
  - intros i Hi. rewrite ff_zero by lia. lia.
Qed.

(** With a single day, two or more people always share it: each of the
    seven probability functions returns 1. *)
Theorem one_day_is_certain n :
  2 <= n ->
  returns (prob 1 n 0) 1
  /\ returns (prob_r1 1 n) 1 /\ returns (prob_r1_bottomup 1 n) 1
  /\ returns (prob_r2_float 1 n) 1 /\ returns (prob_r2_bottomup_float 1 n) 1
  /\ returns (prob_r3_memo 1 n) 1 /\ returns (prob_r3_bottomup 1 n) 1.
Proof.
  intros Hn.
  assert (strong_ratio 1 n == 1)%Q as H1.
  { unfold strong_ratio. rewrite strong_count_one_day by lia.
    change (inject_Z 1) with 1%Q. rewrite Qpower_1. reflexivity. }
  repeat split; apply (returns_eq _ (strong_ratio 1 n)); try exact H1.
  - apply prob_returns; lia.
  - apply prob_r1_returns; lia.
  - apply prob_r1_bottomup_returns; lia.
  - apply prob_r2_float_returns; lia.
  - apply prob_r2_bottomup_float_returns; lia.
  - apply prob_r3_memo_returns; lia.
  - apply prob_r3_bottomup_returns; lia.
Qed.

Lemma one_day_is_certain_witness :
  2 <= 5
  /\ (returns (prob 1 5 0) 1
      /\ returns (prob_r1 1 5) 1 /\ returns (prob_r1_bottomup 1 5) 1
      /\ returns (prob_r2_float 1 5) 1
      /\ returns (prob_r2_bottomup_float 1 5) 1
      /\ returns (prob_r3_memo 1 5) 1 /\ returns (prob_r3_bottomup 1 5) 1).
Proof. split; [lia|apply (one_day_is_certain 5); lia]. Defined.
